(** * RainViewer radar map (src/test2/script.js): model and properties

    The script keeps six module-level variables, asks Leaflet for tile
    layers, writes two DOM text nodes and owns one interval timer.  All of
    that is threaded here through one [state] record; the functions of the
    script become computations in a small state-and-exception monad, so
    that a JavaScript [throw] leaves the mutations made so far in place.

    Conventions.
    - JavaScript numbers that hold array positions and epoch seconds are
      integers far below 2^53; they are values of [Z].
    - The feed is typed as the script reads it: [radar], [past], [nowcast]
      and [host] may be absent ([None]); a frame carries a string [path]
      and an integer [time].
    - [radarLayers] is the object used as a dictionary from frame path to
      tile layer.  Its own entries are a [gmap string layer]; a read
      [radarLayers[p]] that finds no own entry goes on to
      [Object.prototype], whose member names give a function or an object
      instead of undefined ([getProperty]).
    - Leaflet is outside the repository: the map surface is the finite set
      of the identities of the layers added to it. *)

From stdpp Require Import gmap strings list fin_maps pretty.

Open Scope Z_scope.

(** ** Data *)

Record frame := Frame { path : string; time : Z }.

Record radar := Radar {
  past : option (list frame);      (* [None]: key absent or not an array *)
  nowcast : option (list frame)
}.

Record feed := Feed {
  host : option string;            (* [None]: key absent, reads as undefined *)
  radar_of : option radar
}.

(** What [L.tileLayer(url, options)] returns: a fresh object, told apart by
    its identity, bound to the URL template it was built from. *)
Record layer := Layer { layer_id : nat; layer_url : string }.

(** Content of a DOM text node: a literal, or the host's rendering of
    [new Date(ms).toLocaleString()], kept symbolic in the milliseconds. *)
Inductive text :=
| Literal (s : string)
| LocaleString (ms : Z).

Inductive exn :=
| TypeError
| SyntaxError                      (* response.json() on a malformed body *)
| Error (message : string).

(** ** Configuration (lines 33-38) *)

Definition tileSize : Z := 512.
Definition colorScheme : Z := 2.
Definition smooth : Z := 1.
Definition snow : Z := 1.
Definition extension : string := "png".

(** Identity of the OpenStreetMap base layer put on the map at line 27. *)
Definition baseLayer : nat := 0%nat.

(** ** State *)

Record state := State {
  (* the script's variables, lines 41-46 *)
  apiData : option feed;
  frames : list frame;
  currentFrameIndex : Z;
  radarLayers : gmap string layer;
  playing : bool;
  timer : option nat;
  (* Leaflet: layers on the map, next fresh layer identity *)
  mapLayers : gset nat;
  nextLayer : nat;
  (* host timers: active intervals, next fresh interval id *)
  intervals : gset nat;
  nextInterval : nat;
  (* DOM: text of #frameTime and of #playPause *)
  frameTime : text;
  playPause : text
}.

Definition set_apiData v s := State v (frames s) (currentFrameIndex s) (radarLayers s) (playing s) (timer s) (mapLayers s) (nextLayer s) (intervals s) (nextInterval s) (frameTime s) (playPause s).
Definition set_frames v s := State (apiData s) v (currentFrameIndex s) (radarLayers s) (playing s) (timer s) (mapLayers s) (nextLayer s) (intervals s) (nextInterval s) (frameTime s) (playPause s).
Definition set_currentFrameIndex v s := State (apiData s) (frames s) v (radarLayers s) (playing s) (timer s) (mapLayers s) (nextLayer s) (intervals s) (nextInterval s) (frameTime s) (playPause s).
Definition set_radarLayers v s := State (apiData s) (frames s) (currentFrameIndex s) v (playing s) (timer s) (mapLayers s) (nextLayer s) (intervals s) (nextInterval s) (frameTime s) (playPause s).
Definition set_playing v s := State (apiData s) (frames s) (currentFrameIndex s) (radarLayers s) v (timer s) (mapLayers s) (nextLayer s) (intervals s) (nextInterval s) (frameTime s) (playPause s).
Definition set_timer v s := State (apiData s) (frames s) (currentFrameIndex s) (radarLayers s) (playing s) v (mapLayers s) (nextLayer s) (intervals s) (nextInterval s) (frameTime s) (playPause s).
Definition set_mapLayers v s := State (apiData s) (frames s) (currentFrameIndex s) (radarLayers s) (playing s) (timer s) v (nextLayer s) (intervals s) (nextInterval s) (frameTime s) (playPause s).
Definition set_nextLayer v s := State (apiData s) (frames s) (currentFrameIndex s) (radarLayers s) (playing s) (timer s) (mapLayers s) v (intervals s) (nextInterval s) (frameTime s) (playPause s).
Definition set_intervals v s := State (apiData s) (frames s) (currentFrameIndex s) (radarLayers s) (playing s) (timer s) (mapLayers s) (nextLayer s) v (nextInterval s) (frameTime s) (playPause s).
Definition set_nextInterval v s := State (apiData s) (frames s) (currentFrameIndex s) (radarLayers s) (playing s) (timer s) (mapLayers s) (nextLayer s) (intervals s) v (frameTime s) (playPause s).
Definition set_frameTime v s := State (apiData s) (frames s) (currentFrameIndex s) (radarLayers s) (playing s) (timer s) (mapLayers s) (nextLayer s) (intervals s) (nextInterval s) v (playPause s).
Definition set_playPause v s := State (apiData s) (frames s) (currentFrameIndex s) (radarLayers s) (playing s) (timer s) (mapLayers s) (nextLayer s) (intervals s) (nextInterval s) (frameTime s) v.

(** The page right after the script's top level has run, before the fetch
    settles; [ft] and [pp] are the texts the HTML gives the two nodes. *)
Definition initial (ft pp : text) : state :=
  State None [] 0 ∅ false None {[ baseLayer ]} 1%nat ∅ 1%nat ft pp.

(** ** Computations: state that survives an exception *)

Inductive outcome (A : Type) :=
| Ret (a : A)
| Throw (e : exn).
Arguments Ret {A} a.
Arguments Throw {A} e.

Definition M (A : Type) : Type := state → state * outcome A.

#[global] Instance M_ret : MRet M := λ A a s, (s, Ret a).
#[global] Instance M_bind : MBind M := λ A B k m s,
  match m s with
  | (s', Ret a) => k a s'
  | (s', Throw e) => (s', Throw e)
  end.

Definition throw {A} (e : exn) : M A := λ s, (s, Throw e).
Definition read {A} (f : state → A) : M A := λ s, (s, Ret (f s)).
Definition write (f : state → state) : M unit := λ s, (f s, Ret ()).
(** [promise.catch(h)]: the handler runs in the state the throw left. *)
Definition catch {A} (m : M A) (h : exn → M A) : M A := λ s,
  match m s with
  | (s', Ret a) => (s', Ret a)
  | (s', Throw e) => h e s'
  end.

(** State in which a computation leaves the page, and what it returned. *)
Definition exec {A} (m : M A) (s : state) : state := (m s).1.
Definition result {A} (m : M A) (s : state) : outcome A := (m s).2.

(** ** URL builder (lines 57-60) *)

(** [String(n)] for an integer-valued number. *)
Definition num (n : Z) : string := pretty n.

(** [String(v)] for a property that may be missing. *)
Definition str (v : option string) : string := default "undefined" v.

(** JavaScript's [+] on strings associates to the left. *)
Infix ".+." := String.append (at level 50, left associativity).

Definition buildTileUrl (fr : frame) : M string :=
  data ← read apiData;
  match data with
  | None => throw TypeError        (* apiData is undefined: no .host *)
  | Some d =>
      mret (str (host d) .+. path fr .+. "/" .+. num tileSize .+. "/{z}/{x}/{y}/" .+.
            num colorScheme .+. "/" .+. num smooth .+. "_" .+. num snow .+. "." .+. extension)
  end.

(** ** Overlay controller (lines 65-122) *)

(** [if (map.hasLayer(layer)) map.removeLayer(layer)] *)
Definition removeIfShown (shown : gset nat) (l : layer) : gset nat :=
  if decide (layer_id l ∈ shown) then shown ∖ {[ layer_id l ]} else shown.

(** [Object.values(radarLayers)] *)
Definition values (cache : gmap string layer) : list layer := (map_to_list cache).*2.

Definition cleared (cache : gmap string layer) (shown : gset nat) : gset nat :=
  foldl removeIfShown shown (values cache).

Definition clearRadarLayers : M unit :=
  write (λ s, set_mapLayers (cleared (radarLayers s) (mapLayers s)) s).

(** Lines 85-86: the two wrap-around tests, in the order of the source. *)
Definition normalize (position len : Z) : Z :=
  let position := if position <? 0 then len - 1 else position in
  if position >=? len then 0 else position.

(** [frames[i]]; [None] is undefined. *)
Definition at_index (fs : list frame) (i : Z) : option frame :=
  if i <? 0 then None else fs !! Z.to_nat i.

(** [L.tileLayer(url, {tileSize: 256, opacity: 0.6, zIndex: 10, maxZoom: 9})] *)
Definition tileLayer (url : string) : M layer :=
  id ← read nextLayer;
  write (set_nextLayer (S id));;
  mret (Layer id url).

(** [layer.addTo(map)] *)
(** The member names of [Object.prototype], which the object literal of
    line 44 inherits. *)
Definition objectPrototype : list string :=
  ["constructor"; "__defineGetter__"; "__defineSetter__"; "hasOwnProperty";
   "__lookupGetter__"; "__lookupSetter__"; "isPrototypeOf"; "propertyIsEnumerable";
   "toString"; "valueOf"; "__proto__"; "toLocaleString"].

Definition inherited (p : string) : bool := bool_decide (p ∈ objectPrototype).
Arguments inherited : simpl never.

(** What [radarLayers[p]] evaluates to when it is not undefined. *)
Inductive property :=
| OwnLayer (l : layer)             (* an entry the script has stored *)
| Inherited.                       (* a member of [Object.prototype]: truthy, no [addTo] *)

(** [radarLayers[p]]: an own entry first, then the prototype. *)
Definition getProperty (cache : gmap string layer) (p : string) : option property :=
  match cache !! p with
  | Some l => Some (OwnLayer l)
  | None => if inherited p then Some Inherited else None
  end.

Definition addTo (l : layer) : M unit :=
  write (λ s, set_mapLayers ({[ layer_id l ]} ∪ mapLayers s) s).

Definition loadFrame (position : Z) : M unit :=
  fs ← read frames;
  let len := Z.of_nat (length fs) in
  if len =? 0 then mret () else
  write (set_currentFrameIndex (normalize position len));;
  i ← read currentFrameIndex;
  match at_index fs i with
  | None => throw TypeError        (* undefined has no .path *)
  | Some fr =>
      cache ← read radarLayers;
      match getProperty cache (path fr) with
      | Some _ => mret ()
      | None =>
          urlTemplate ← buildTileUrl fr;
          l ← tileLayer urlTemplate;
          write (λ s, set_radarLayers (<[path fr := l]> (radarLayers s)) s)
      end;;
      clearRadarLayers;;
      cache ← read radarLayers;
      match getProperty cache (path fr) with
      | Some (OwnLayer l) => addTo l
      | Some Inherited => throw TypeError   (* the member has no .addTo *)
      | None => throw TypeError             (* undefined has no .addTo *)
      end;;
      write (set_frameTime (LocaleString (time fr * 1000)))
  end.

Definition nextFrame : M unit :=
  i ← read currentFrameIndex; loadFrame (i + 1).

Definition prevFrame : M unit :=
  i ← read currentFrameIndex; loadFrame (i - 1).

(** ** Animation driver (lines 127-144) *)

(** [setInterval(callback, 500)]: a fresh id, now active. *)
Definition setInterval : M nat :=
  id ← read nextInterval;
  write (λ s, set_intervals ({[ id ]} ∪ intervals s) (set_nextInterval (S id) s));;
  mret id.

(** [clearInterval(t)]; an undefined or stale id is ignored. *)
Definition clearInterval (t : option nat) : M unit :=
  match t with
  | None => mret ()
  | Some id => write (λ s, set_intervals (intervals s ∖ {[ id ]}) s)
  end.

Definition startAnimation : M unit :=
  p ← read playing;
  if (p : bool) then mret () else
  write (set_playing true);;
  write (set_playPause (Literal "Stop"));;
  id ← setInterval;
  write (set_timer (Some id)).

Definition stopAnimation : M unit :=
  p ← read playing;
  if negb (p : bool) then mret () else
  write (set_playing false);;
  write (set_playPause (Literal "Play"));;
  t ← read timer;
  clearInterval t.

(** ** Events (lines 131-133, 147-163) *)

Inductive event :=
| ClickPlayPause
| ClickPrevFrame
| ClickNextFrame
| Tick (id : nat)                  (* the interval [id] fires *)
| CallLoadFrame (position : Z).    (* a direct call of [loadFrame] *)

Definition handler (e : event) : M unit :=
  match e with
  | ClickPlayPause =>
      p ← read playing;
      if (p : bool) then stopAnimation else startAnimation
  | ClickPrevFrame => stopAnimation;; prevFrame
  | ClickNextFrame => stopAnimation;; nextFrame
  | Tick id =>
      active ← read intervals;
      if decide (id ∈ active) then nextFrame else mret ()
  | CallLoadFrame position => loadFrame position
  end.

(** A handler runs to completion; what it throws is reported by the host
    and the page lives on in the state reached. *)
Definition step (e : event) (s : state) : state := exec (handler e) s.

(** ** Feed loader (lines 173-203) *)

(** How [fetch(apiUrl)] settles: rejected, or a response with its [ok]
    flag, its status and its body, [None] when the body is not JSON. *)
Inductive fetched :=
| Rejected
| Response (ok : bool) (status : Z) (body : option feed).

(** First [then]: lines 175-180. *)
Definition onResponse (r : fetched) : M feed :=
  match r with
  | Rejected => throw TypeError
  | Response ok _ body =>
      if negb ok then throw (Error "Network response was not ok") else
      match body with
      | None => throw SyntaxError
      | Some data => mret data
      end
  end.

(** Second [then]: lines 181-198. *)
Definition onData (data : feed) : M unit :=
  write (set_apiData (Some data));;
  write (set_frames []);;
  match radar_of data with
  | Some r =>
      match past r with
      | Some p => write (set_frames p)
      | None => mret ()
      end
  | None => mret ()
  end;;
  match radar_of data with
  | Some r =>
      match nowcast r with
      | Some n => write (λ s, set_frames (frames s ++ n) s)
      | None => mret ()
      end
  | None => mret ()
  end;;
  fs ← read frames;
  let len := Z.of_nat (length fs) in
  if len =? 0 then write (set_frameTime (Literal "No data")) else
  loadFrame (len - 1).

(** [catch]: lines 199-202. *)
Definition onError (_ : exn) : M unit :=
  write (set_frameTime (Literal "Error loading data")).

Definition fetchFrames (r : fetched) : M unit :=
  catch (data ← onResponse r; onData data) onError.

(** ** Reachable states

    [fetchFrames] is called once, at line 206, so its promise settles at
    most once; the flag tells whether it has.  Clicks and ticks may come
    before and after. *)
Inductive reach : bool → state → Prop :=
| reach_initial ft pp : reach false (initial ft pp)
| reach_step b s e : reach b s → reach b (step e s)
| reach_fetch s r : reach false s → reach true (exec (fetchFrames r) s).

(** Overlays on the map surface: every layer but the base map. *)
Definition activeOverlays (s : state) : gset nat := mapLayers s ∖ {[ baseLayer ]}.

(** ** Notions used in the statements *)

(** The part of every tile URL that the configuration fixes. *)
Definition urlSuffix : string := "/512/{z}/{x}/{y}/2/1_1.png".

(** The collection as the specification words it: past frames, then
    forecast frames, a missing list counting as empty. *)
Definition composed (data : feed) : list frame :=
  match radar_of data with
  | Some r => default [] (past r) ++ default [] (nowcast r)
  | None => []
  end.

(** ** Invariants *)

(** The timer variable and the host's active intervals agree with the
    [playing] flag. *)
Definition timer_inv (s : state) : Prop :=
  if playing s then ∃ id, timer s = Some id ∧ intervals s = {[ id ]}
  else intervals s = ∅.

(** The layers on the map are the base map and layers of the cache, and
    the base map is not in the cache. *)
Record layers_inv (s : state) : Prop := {
  inv_fresh : (baseLayer < nextLayer s)%nat;
  inv_base : baseLayer ∈ mapLayers s;
  inv_cache : ∀ k l, radarLayers s !! k = Some l → layer_id l ≠ baseLayer;
  inv_shown : ∀ x, x ∈ mapLayers s →
                   x = baseLayer ∨ ∃ k l, radarLayers s !! k = Some l ∧ layer_id l = x
}.

(** With frames in place: the feed is stored, the index is in range and
    the layer of the current frame is the one overlay on the map, unless
    the frame's path is a name of [Object.prototype]: then no layer was
    made for it and the map shows the base map alone.
    Without frames: the map shows the base map alone. *)
Definition shown_inv (s : state) : Prop :=
  if decide (frames s = []) then mapLayers s = {[ baseLayer ]}
  else is_Some (apiData s) ∧
       0 ≤ currentFrameIndex s < Z.of_nat (length (frames s)) ∧
       ∃ fr, at_index (frames s) (currentFrameIndex s) = Some fr ∧
             match radarLayers s !! path fr with
             | Some l => mapLayers s = {[ layer_id l ]} ∪ {[ baseLayer ]}
             | None => inherited (path fr) = true ∧ mapLayers s = {[ baseLayer ]}
             end.

(** What every reachable state satisfies; [settled] tells whether the
    fetch has settled. *)
Definition inv (settled : bool) (s : state) : Prop :=
  timer_inv s ∧ layers_inv s ∧ shown_inv s ∧ (settled = false → frames s = []).

(** [new] is one position after (before) [old] in the cyclic index space
    of size [n]: the neighbouring position, or the other end when [old]
    is the last (first) position. *)
Definition cyclic_succ (n old new : Z) : Prop :=
  (old + 1 < n ∧ new = old + 1) ∨ (old + 1 = n ∧ new = 0).

Definition cyclic_pred (n old new : Z) : Prop :=
  (0 < old ∧ new = old - 1) ∨ (old = 0 ∧ new = n - 1).

(** A run of direct [loadFrame] calls. *)
Definition loadFrames (positions : list Z) (s : state) : state :=
  foldl (λ s position, exec (loadFrame position) s) s positions.

(** ** Sample data *)

Definition frameA : frame := Frame "/v2/radar/1755470400" 1755470400.
Definition frameB : frame := Frame "/v2/radar/1755471000" 1755471000.
Definition frameC : frame := Frame "/v2/radar/nowcast_760a92849a05" 1755471600.
Definition tilecache : string := "https://tilecache.rainviewer.com".

Definition sampleFeed : feed :=
  Feed (Some tilecache) (Some (Radar (Some [frameA; frameB]) (Some [frameC]))).

Definition blank : state := initial (Literal "") (Literal "Play").

(** The page after the sample feed has arrived. *)
Definition loaded : state :=
  exec (fetchFrames (Response true 200 (Some sampleFeed))) blank.

(** ** Runs of events, and what the cache and the texts keep *)

(** The handlers of a list of events, one after the other. *)
Definition steps (es : list event) (s : state) : state :=
  foldl (λ s e, step e s) s es.

(** [k] calls of [nextFrame] in a row, as [k] ticks of the timer make. *)
Definition advance (k : nat) (s : state) : state := Nat.iter k (exec nextFrame) s.

(** The tile URL of the path [p] under the feed [d]. *)
Definition tileUrl (d : feed) (p : string) : string := str (host d) +:+ p +:+ urlSuffix.

(** Every layer of the cache was made by [L.tileLayer] after the base
    layer, for the path it is filed under, which is the path of a frame
    of the collection; no layer is filed twice; nothing else was made. *)
Record cache_inv (s : state) : Prop := {
  cache_count : nextLayer s = S (size (radarLayers s));
  cache_below : ∀ k l, radarLayers s !! k = Some l →
                       (baseLayer < layer_id l < nextLayer s)%nat;
  cache_distinct : ∀ k1 k2 l1 l2,
      radarLayers s !! k1 = Some l1 → radarLayers s !! k2 = Some l2 →
      layer_id l1 = layer_id l2 → k1 = k2;
  cache_url : ∀ k l, radarLayers s !! k = Some l →
                     ∃ d, apiData s = Some d ∧ layer_url l = tileUrl d k;
  cache_keys : ∀ k l, radarLayers s !! k = Some l → ∃ fr, fr ∈ frames s ∧ path fr = k;
  cache_own : ∀ k l, radarLayers s !! k = Some l → inherited k = false
}.

(** With frames in place, #frameTime shows the time of the current
    frame, unless the frame's path is a name of [Object.prototype]. *)
Definition text_inv (s : state) : Prop :=
  frames s ≠ [] →
  ∃ fr, at_index (frames s) (currentFrameIndex s) = Some fr ∧
        (inherited (path fr) = false → frameTime s = LocaleString (time fr * 1000)).

(** No frame of the list has a path that names a member of
    [Object.prototype]. *)
Definition clean (fs : list frame) : Prop :=
  Forall (λ fr, inherited (path fr) = false) fs.

(** While playing, #playPause offers to stop. *)
Definition label_inv (s : state) : Prop :=
  playing s = true → playPause s = Literal "Stop".

(** Until the fetch settles there is no feed and the index is at 0. *)
Definition pending_inv (settled : bool) (s : state) : Prop :=
  settled = false → apiData s = None ∧ currentFrameIndex s = 0.

Definition inv2 (settled : bool) (s : state) : Prop :=
  cache_inv s ∧ text_inv s ∧ label_inv s ∧ pending_inv settled s.

(** A page on which the fetch has failed. *)
Definition failed : state := exec (fetchFrames (Response false 500 None)) blank.

(** The sample page with the animation running. *)
Definition animated : state := step ClickPlayPause loaded.

(** A feed whose one past frame has a path that [Object.prototype] knows,
    and the page after it has arrived. *)
Definition frameP : frame := Frame "constructor" 1755472200.

Definition protoFeed : feed :=
  Feed (Some tilecache) (Some (Radar (Some [frameP]) None)).

Definition stuck : state :=
  exec (fetchFrames (Response true 200 (Some protoFeed))) blank.

(** * Properties *)

(** ** Running computations *)

Ltac run :=
  unfold exec, result, mbind, M_bind, mret, M_ret, read, write, throw, catch;
  cbn [fst snd].

(** Reading a field of an updated page. *)
Ltac fields :=
  cbn [fst snd apiData frames currentFrameIndex radarLayers playing timer mapLayers
       nextLayer intervals nextInterval frameTime playPause
       set_apiData set_frames set_currentFrameIndex set_radarLayers set_playing
       set_timer set_mapLayers set_nextLayer set_intervals set_nextInterval
       set_frameTime set_playPause layer_id layer_url].

Lemma exec_bind {A B} (m : M A) (k : A → M B) s s' a :
  m s = (s', Ret a) → (m ≫= k) s = k a s'.
Proof. intros H. unfold mbind, M_bind. by rewrite H. Qed.

(** ** The map surface after [clearRadarLayers] *)

Lemma removeIfShown_diff shown l : removeIfShown shown l = shown ∖ {[ layer_id l ]}.
Proof.
  unfold removeIfShown. case_decide as H; [done|].
  apply set_eq. intros x. rewrite elem_of_difference, elem_of_singleton.
  split; [|tauto]. intros Hx. split; [done|]. by intros ->.
Qed.

Lemma elem_of_foldl_remove (ls : list layer) (shown : gset nat) (x : nat) :
  x ∈ foldl removeIfShown shown ls ↔ x ∈ shown ∧ ∀ l, l ∈ ls → layer_id l ≠ x.
Proof.
  revert shown. induction ls as [|l ls IH]; intros shown; simpl.
  - split; [intros H; split; [done|] | tauto]. intros l Hl. inversion Hl.
  - rewrite IH, removeIfShown_diff, elem_of_difference, elem_of_singleton. split.
    + intros [[Hx Hne] Hls]. split; [done|].
      intros l' [->|Hl']%elem_of_cons; [by intros E|auto].
    + intros [Hx Hls]. split; [split; [done|]|].
      * intros E. by apply (Hls l); [left|].
      * intros l' Hl'. apply Hls. by right.
Qed.

Lemma elem_of_values (cache : gmap string layer) (l : layer) :
  l ∈ values cache ↔ ∃ k, cache !! k = Some l.
Proof.
  unfold values. rewrite list_elem_of_fmap. split.
  - intros [[k l'] [-> Hin]]. exists k. by apply elem_of_map_to_list.
  - intros [k Hk]. exists (k, l). split; [done|]. by apply elem_of_map_to_list.
Qed.

Lemma elem_of_cleared (cache : gmap string layer) (shown : gset nat) (x : nat) :
  x ∈ cleared cache shown ↔
  x ∈ shown ∧ ∀ k l, cache !! k = Some l → layer_id l ≠ x.
Proof.
  unfold cleared. rewrite elem_of_foldl_remove. split; intros [Hx H]; (split; [done|]).
  - intros k l Hk. apply H, elem_of_values. eauto.
  - intros l [k Hk]%elem_of_values. eauto.
Qed.

Lemma cleared_idem cache shown : cleared cache (cleared cache shown) = cleared cache shown.
Proof.
  apply set_eq. intros x. rewrite !elem_of_cleared. tauto.
Qed.

(** Clearing, showing a cached layer, clearing and showing it again. *)
Lemma cleared_shown_again cache shown k l id :
  cache !! k = Some l → layer_id l = id →
  {[ id ]} ∪ cleared cache ({[ id ]} ∪ cleared cache shown)
  = {[ id ]} ∪ cleared cache shown.
Proof.
  intros Hk <-. apply set_eq. intros x.
  rewrite !elem_of_union, !elem_of_cleared, elem_of_union, elem_of_cleared, elem_of_singleton.
  split; [|tauto]. intros [->|[[->|H] _]]; auto.
Qed.

(** ** Index normalisation *)

Lemma normalize_range i n : 0 < n → 0 ≤ normalize i n < n.
Proof. unfold normalize. intros Hn. repeat case_match; lia. Qed.

Lemma normalize_in_range k n : 0 ≤ k < n → normalize k n = k.
Proof. unfold normalize. intros Hk. repeat case_match; lia. Qed.

Lemma normalize_idem i n : 0 < n → normalize (normalize i n) n = normalize i n.
Proof. intros Hn. apply normalize_in_range, normalize_range, Hn. Qed.

Lemma length_pos (fs : list frame) : fs ≠ [] → 0 < Z.of_nat (length fs).
Proof. destruct fs; [done|]. simpl. lia. Qed.

Lemma at_index_is_Some fs i : 0 ≤ i < Z.of_nat (length fs) → is_Some (at_index fs i).
Proof.
  intros Hi. unfold at_index. case_match; [lia|].
  apply lookup_lt_is_Some. lia.
Qed.

Lemma at_index_normalize fs i : fs ≠ [] → is_Some (at_index fs (normalize i (Z.of_nat (length fs)))).
Proof. intros H. apply at_index_is_Some, normalize_range, length_pos, H. Qed.

(** ** URL builder *)

Lemma append_assoc (a b c : string) : (a .+. b) .+. c = a .+. (b .+. c).
Proof.
  induction a as [|ch a IH]; [reflexivity|].
  change (String ch ((a .+. b) .+. c) = String ch (a .+. (b .+. c))).
  by rewrite IH.
Qed.

Lemma buildTileUrl_run s d fr :
  apiData s = Some d →
  buildTileUrl fr s = (s, Ret (str (host d) .+. (path fr .+. urlSuffix))).
Proof.
  intros Hd. unfold buildTileUrl. run. rewrite Hd.
  do 2 f_equal. rewrite !append_assoc. reflexivity.
Qed.

Lemma buildTileUrl_undefined s fr :
  apiData s = None → buildTileUrl fr s = (s, Throw TypeError).
Proof. intros Hd. unfold buildTileUrl. run. by rewrite Hd. Qed.

(** ** What [loadFrame] does, case by case *)

Section LoadFrame.
Variables (s : state) (position : Z).
Let n := Z.of_nat (length (frames s)).
Let i := normalize position n.

Lemma loadFrame_empty : frames s = [] → loadFrame position s = (s, Ret ()).
Proof. intros H. unfold loadFrame. run. by rewrite H. Qed.

Hypothesis nonempty : frames s ≠ [].

Lemma loadFrame_cached fr l :
  at_index (frames s) i = Some fr →
  radarLayers s !! path fr = Some l →
  loadFrame position s =
    (set_frameTime (LocaleString (time fr * 1000))
       (set_mapLayers ({[ layer_id l ]} ∪ cleared (radarLayers s) (mapLayers s))
          (set_currentFrameIndex i s)), Ret ()).
Proof.
  intros Hfr Hl. unfold loadFrame. run.
  pose proof (length_pos _ nonempty) as Hn.
  destruct (Z.eqb_spec (Z.of_nat (length (frames s))) 0) as [H0|_]; [lia|].
  cbn. fold n i. rewrite Hfr. cbn. unfold getProperty. rewrite Hl. cbn. rewrite Hl.
  reflexivity.
Qed.

Lemma loadFrame_fresh fr d :
  at_index (frames s) i = Some fr →
  radarLayers s !! path fr = None →
  inherited (path fr) = false →
  apiData s = Some d →
  let l := Layer (nextLayer s) (str (host d) .+. (path fr .+. urlSuffix)) in
  let cache := <[path fr := l]> (radarLayers s) in
  loadFrame position s =
    (set_frameTime (LocaleString (time fr * 1000))
       (set_mapLayers ({[ layer_id l ]} ∪ cleared cache (mapLayers s))
          (set_radarLayers cache
             (set_nextLayer (S (nextLayer s))
                (set_currentFrameIndex i s)))), Ret ()).
Proof.
  intros Hfr Hl Hp Hd. unfold loadFrame. run.
  pose proof (length_pos _ nonempty) as Hn.
  destruct (Z.eqb_spec (Z.of_nat (length (frames s))) 0) as [H0|_]; [lia|].
  cbn. fold n i. rewrite Hfr. cbn. unfold getProperty. rewrite Hl, Hp.
  rewrite (buildTileUrl_run _ d) by done.
  cbn. unfold tileLayer. run. cbn. rewrite lookup_insert_eq. reflexivity.
Qed.

Lemma loadFrame_no_host fr :
  at_index (frames s) i = Some fr →
  radarLayers s !! path fr = None →
  inherited (path fr) = false →
  apiData s = None →
  loadFrame position s = (set_currentFrameIndex i s, Throw TypeError).
Proof.
  intros Hfr Hl Hp Hd. unfold loadFrame. run.
  pose proof (length_pos _ nonempty) as Hn.
  destruct (Z.eqb_spec (Z.of_nat (length (frames s))) 0) as [H0|_]; [lia|].
  cbn. fold n i. rewrite Hfr. cbn. unfold getProperty. rewrite Hl, Hp.
  rewrite buildTileUrl_undefined by done. reflexivity.
Qed.

(** The path names a member of [Object.prototype]: line 91 finds the
    member, no layer is made, the map is cleared and line 103 throws. *)
Lemma loadFrame_inherited fr :
  at_index (frames s) i = Some fr →
  radarLayers s !! path fr = None →
  inherited (path fr) = true →
  loadFrame position s =
    (set_mapLayers (cleared (radarLayers s) (mapLayers s)) (set_currentFrameIndex i s),
     Throw TypeError).
Proof.
  intros Hfr Hl Hp. unfold loadFrame. run.
  pose proof (length_pos _ nonempty) as Hn.
  destruct (Z.eqb_spec (Z.of_nat (length (frames s))) 0) as [H0|_]; [lia|].
  cbn. fold n i. rewrite Hfr. cbn. unfold getProperty. rewrite Hl, Hp. cbn.
  rewrite Hl. reflexivity.
Qed.

(** The four ways through [loadFrame] when there are frames. *)
Lemma loadFrame_cases :
  ∃ fr, at_index (frames s) i = Some fr ∧
    ((∃ l, radarLayers s !! path fr = Some l ∧
           loadFrame position s =
             (set_frameTime (LocaleString (time fr * 1000))
                (set_mapLayers ({[ layer_id l ]} ∪ cleared (radarLayers s) (mapLayers s))
                   (set_currentFrameIndex i s)), Ret ())) ∨
     (radarLayers s !! path fr = None ∧ inherited (path fr) = true ∧
      loadFrame position s =
        (set_mapLayers (cleared (radarLayers s) (mapLayers s)) (set_currentFrameIndex i s),
         Throw TypeError)) ∨
     (∃ d, radarLayers s !! path fr = None ∧ inherited (path fr) = false ∧
           apiData s = Some d ∧
           loadFrame position s =
             (set_frameTime (LocaleString (time fr * 1000))
                (set_mapLayers
                   ({[ nextLayer s ]} ∪
                    cleared (<[path fr := Layer (nextLayer s) (str (host d) .+. (path fr .+. urlSuffix))]>
                               (radarLayers s)) (mapLayers s))
                   (set_radarLayers
                      (<[path fr := Layer (nextLayer s) (str (host d) .+. (path fr .+. urlSuffix))]>
                         (radarLayers s))
                      (set_nextLayer (S (nextLayer s))
                         (set_currentFrameIndex i s)))), Ret ())) ∨
     (radarLayers s !! path fr = None ∧ inherited (path fr) = false ∧
      apiData s = None ∧
      loadFrame position s = (set_currentFrameIndex i s, Throw TypeError))).
Proof.
  destruct (at_index_normalize (frames s) position nonempty) as [fr Hfr].
  fold n i in Hfr. exists fr. split; [done|].
  destruct (radarLayers s !! path fr) as [l|] eqn:Hl.
  { left. exists l. split; [done|]. exact (loadFrame_cached fr l Hfr Hl). }
  right. destruct (inherited (path fr)) eqn:Hp.
  { left. split; [done|]. split; [done|]. exact (loadFrame_inherited fr Hfr Hl Hp). }
  right. destruct (apiData s) as [d|] eqn:Hd.
  - left. exists d. do 3 (split; [done|]). exact (loadFrame_fresh fr d Hfr Hl Hp Hd).
  - right. do 3 (split; [done|]). exact (loadFrame_no_host fr Hfr Hl Hp Hd).
Qed.

Lemma loadFrame_index : currentFrameIndex (exec (loadFrame position) s) = i.
Proof.
  unfold exec.
  destruct loadFrame_cases as (fr & _ & [(l & _ & ->) | [(_ & _ & ->) |
    [(d & _ & _ & _ & ->) | (_ & _ & _ & ->)]]]); reflexivity.
Qed.
End LoadFrame.

(** A page on which the frame at [position] is already the one shown is
    left as it is by [loadFrame position]. *)
Lemma loadFrame_shown s position fr l shown :
  frames s ≠ [] →
  currentFrameIndex s = normalize position (Z.of_nat (length (frames s))) →
  at_index (frames s) (currentFrameIndex s) = Some fr →
  radarLayers s !! path fr = Some l →
  mapLayers s = {[ layer_id l ]} ∪ cleared (radarLayers s) shown →
  frameTime s = LocaleString (time fr * 1000) →
  loadFrame position s = (s, Ret ()).
Proof.
  intros Hne Hi Hfr Hl Hm Ht. rewrite Hi in Hfr.
  rewrite (loadFrame_cached s position Hne fr l Hfr Hl).
  rewrite <- Hi, <- Ht. rewrite Hm at 1.
  rewrite (cleared_shown_again _ _ _ _ _ Hl eq_refl), <- Hm.
  by destruct s.
Qed.

(** After a [loadFrame] that left the frame's layer in the cache, the
    same call returns normally, changes nothing, and the layer is on the
    map. *)
Lemma loadFrame_again s k fr l :
  frames s ≠ [] →
  at_index (frames s) (normalize k (Z.of_nat (length (frames s)))) = Some fr →
  radarLayers (exec (loadFrame k) s) !! path fr = Some l →
  loadFrame k (exec (loadFrame k) s) = (exec (loadFrame k) s, Ret ()) ∧
  layer_id l ∈ mapLayers (exec (loadFrame k) s).
Proof.
  intros Hne Hfr. pose proof (length_pos _ Hne) as Hn. unfold exec.
  destruct (loadFrame_cases s k Hne) as (fr' & Hfr' & Hcases).
  assert (fr' = fr) as -> by congruence. clear Hfr'.
  destruct Hcases as [(l0 & Hl & ->) | [(Hl & Hp & ->) |
    [(d & Hl & Hp & Hd & ->) | (Hl & Hp & Hd & ->)]]]; fields; intros Hl1.
  - assert (l0 = l) as -> by congruence.
    split; [|by apply elem_of_union_l, elem_of_singleton].
    by apply (loadFrame_shown _ k fr l (mapLayers s)).
  - congruence.
  - rewrite lookup_insert_eq in Hl1. injection Hl1 as <-.
    split; [|by apply elem_of_union_l, elem_of_singleton].
    apply (loadFrame_shown _ k fr (Layer (nextLayer s) (str (host d) .+. (path fr .+. urlSuffix)))
             (mapLayers s)); fields; try done.
    apply lookup_insert_eq.
  - congruence.
Qed.

(** A second [loadFrame] with the same argument finds the page as the
    first one left it, whatever the first one did. *)
Lemma loadFrame_twice s k :
  exec (loadFrame k) (exec (loadFrame k) s) = exec (loadFrame k) s.
Proof.
  destruct (decide (frames s = [])) as [He|Hne].
  { unfold exec. rewrite (loadFrame_empty s k He). cbn [fst].
    by rewrite (loadFrame_empty s k He). }
  pose proof (length_pos _ Hne) as Hn.
  destruct (loadFrame_cases s k Hne) as (fr & Hfr & Hcases).
  destruct Hcases as [(l & Hl & E) | [(Hl & Hp & E) |
    [(d & Hl & Hp & Hd & E) | (Hl & Hp & Hd & E)]]].
  - destruct (loadFrame_again s k fr l Hne Hfr) as [E2 _].
    { unfold exec. by rewrite E. }
    unfold exec at 1. by rewrite E2.
  - unfold exec. rewrite E. cbn [fst].
    rewrite (loadFrame_inherited
               (set_mapLayers (cleared (radarLayers s) (mapLayers s))
                  (set_currentFrameIndex (normalize k (Z.of_nat (length (frames s)))) s))
               k Hne fr); fields; try done.
    rewrite cleared_idem. reflexivity.
  - destruct (loadFrame_again s k fr
                (Layer (nextLayer s) (str (host d) .+. (path fr .+. urlSuffix))) Hne Hfr)
      as [E2 _].
    { unfold exec. rewrite E. fields. apply lookup_insert_eq. }
    unfold exec at 1. by rewrite E2.
  - unfold exec. rewrite E. cbn [fst].
    by rewrite (loadFrame_no_host (set_currentFrameIndex _ s) k Hne fr Hfr Hl Hp Hd).
Qed.

(** C1: for a non-empty frame collection of length n, [loadFrame i] sets
    the current index to [normalize i n], which lies in [0, n); -1 goes to
    n-1, n goes to 0, an in-range k stays k, every negative input goes to
    the last index and every input >= n goes to zero. *)
Theorem C1_normalize_wraps (s : state) (i : Z) :
  frames s ≠ [] →
  let n := Z.of_nat (length (frames s)) in
  currentFrameIndex (exec (loadFrame i) s) = normalize i n ∧
  0 ≤ normalize i n < n ∧
  normalize (-1) n = n - 1 ∧
  normalize n n = 0 ∧
  (∀ k, 0 ≤ k < n → normalize k n = k) ∧
  (i < 0 → normalize i n = n - 1) ∧
  (n ≤ i → normalize i n = 0).
Proof.
  intros Hne n. pose proof (length_pos _ Hne) as Hn. fold n in Hn.
  split; [by apply loadFrame_index|].
  split; [by apply normalize_range|].
  unfold normalize. repeat split; intros; repeat case_match; lia.
Qed.

Lemma C1_normalize_wraps_witness :
  frames loaded ≠ [] ∧
  currentFrameIndex (exec (loadFrame (-1)) loaded) = normalize (-1) 3 ∧
  0 ≤ normalize (-1) 3 < 3.
Proof.
  split; [by vm_compute|].
  destruct (C1_normalize_wraps loaded (-1)) as (H1 & H2 & _); [by vm_compute|].
  split; [exact H1 | exact H2].
Defined.

(** C3: for every host string and every frame, [buildTileUrl] returns
    host, frame path, "/", tile size, "/{z}/{x}/{y}/", colour scheme, "/",
    smooth, "_", snow, ".", extension, concatenated; with the configured
    values and the path "/v2/radar/1755471000" that is
    "<host>/v2/radar/1755471000/512/{z}/{x}/{y}/2/1_1.png". *)
Theorem C3_buildTileUrl_template (s : state) (h : string) (r : option radar) (fr : frame) (t : Z) :
  let page := set_apiData (Some (Feed (Some h) r)) s in
  result (buildTileUrl fr) page =
    Ret (h +:+ path fr +:+ "/" +:+ num tileSize +:+ "/{z}/{x}/{y}/" +:+ num colorScheme +:+
         "/" +:+ num smooth +:+ "_" +:+ num snow +:+ "." +:+ extension) ∧
  result (buildTileUrl fr) page = Ret (h +:+ path fr +:+ "/512/{z}/{x}/{y}/2/1_1.png") ∧
  result (buildTileUrl (Frame "/v2/radar/1755471000" t)) page =
    Ret (h +:+ "/v2/radar/1755471000/512/{z}/{x}/{y}/2/1_1.png").
Proof.
  intros page. unfold result.
  rewrite !(buildTileUrl_run page (Feed (Some h) r)) by done.
  cbn [snd str host default path]. repeat split.
Qed.

(** C9: [buildTileUrl] depends on the host of the stored feed and on the
    frame only; it leaves the page as it found it, it does not throw, also
    for an empty path or a missing host, and what it returns is host, path
    and the fixed "/512/{z}/{x}/{y}/2/1_1.png", in that order; two calls
    with the same host and frame return the same string. *)
Theorem C9_buildTileUrl_pure_total (s s' : state) (d : feed) (r : option radar) (fr : frame) :
  let page := set_apiData (Some d) s in
  buildTileUrl fr page = (page, Ret (str (host d) +:+ path fr +:+ urlSuffix)) ∧
  buildTileUrl (Frame "" (time fr)) page = (page, Ret (str (host d) +:+ urlSuffix)) ∧
  result (buildTileUrl fr) (set_apiData (Some (Feed None r)) s) =
    Ret ("undefined" +:+ path fr +:+ urlSuffix) ∧
  result (buildTileUrl fr) (set_apiData (Some (Feed (host d) r)) s') =
    result (buildTileUrl fr) page.
Proof.
  intros page. unfold result.
  rewrite !(buildTileUrl_run page d) by done.
  rewrite (buildTileUrl_run _ (Feed None r)) by done.
  rewrite (buildTileUrl_run _ (Feed (host d) r)) by done.
  repeat split.
Qed.

(** C4: showing the same in-range index k twice in a row: the second
    [loadFrame k] leaves the whole page as the first one left it, so the
    layers on the map, the cache, the current index and the time text are
    the same, and no layer is created.  Once a feed is stored the lookup
    of line 91 finds something on the second call: the frame's own layer,
    which is then on the map, the call returning normally; or, for a path
    that names a member of [Object.prototype], that member. *)
Theorem C4_loadFrame_idempotent (s : state) (k : Z) :
  0 ≤ k < Z.of_nat (length (frames s)) →
  let s1 := exec (loadFrame k) s in
  let s2 := exec (loadFrame k) s1 in
  s2 = s1 ∧
  mapLayers s2 = mapLayers s1 ∧
  radarLayers s2 = radarLayers s1 ∧
  currentFrameIndex s2 = k ∧ currentFrameIndex s1 = k ∧
  frameTime s2 = frameTime s1 ∧
  nextLayer s2 = nextLayer s1 ∧
  (is_Some (apiData s) →
   ∃ fr, at_index (frames s1) k = Some fr ∧
         is_Some (getProperty (radarLayers s1) (path fr)) ∧
         (inherited (path fr) = false →
          ∃ l, radarLayers s1 !! path fr = Some l ∧
               layer_id l ∈ mapLayers s1 ∧
               result (loadFrame k) s1 = Ret ())).
Proof.
  intros Hk s1 s2.
  assert (Hne : frames s ≠ []) by (intros E; rewrite E in Hk; simpl in Hk; lia).
  assert (E : s2 = s1) by apply loadFrame_twice.
  assert (Hi : currentFrameIndex s1 = k).
  { unfold s1. rewrite loadFrame_index by done. by apply normalize_in_range. }
  rewrite E. repeat split; try done.
  intros [d Hd].
  destruct (loadFrame_cases s k Hne) as (fr & Hfr & Hcases).
  assert (Hown : ∀ l, radarLayers s1 !! path fr = Some l →
            is_Some (getProperty (radarLayers s1) (path fr)) ∧
            (inherited (path fr) = false →
             ∃ l, radarLayers s1 !! path fr = Some l ∧
                  layer_id l ∈ mapLayers s1 ∧ result (loadFrame k) s1 = Ret ())).
  { intros l Hl1. split; [unfold getProperty; by rewrite Hl1|].
    intros _. exists l. split; [done|].
    destruct (loadFrame_again s k fr l Hne Hfr Hl1) as [E2 Hin].
    split; [done|]. unfold result. fold s1 in E2. by rewrite E2. }
  assert (Ef : frames s1 = frames s).
  { unfold s1, exec.
    destruct Hcases as [(l & _ & ->) | [(_ & _ & ->) |
      [(d' & _ & _ & _ & ->) | (_ & _ & _ & ->)]]]; reflexivity. }
  exists fr. rewrite Ef. rewrite (normalize_in_range k _ Hk) in Hfr. split; [done|].
  destruct Hcases as [(l & Hl & E1) | [(Hl & Hp & E1) |
    [(d' & Hl & Hp & Hd' & E1) | (Hl & Hp & Hd' & E1)]]].
  - apply (Hown l). unfold s1, exec. by rewrite E1.
  - split; [|by rewrite Hp].
    unfold s1, exec, getProperty. rewrite E1. fields. by rewrite Hl, Hp.
  - apply (Hown (Layer (nextLayer s) (str (host d') .+. (path fr .+. urlSuffix)))).
    unfold s1, exec. rewrite E1. fields. apply lookup_insert_eq.
  - congruence.
Qed.

Lemma C4_loadFrame_idempotent_witness :
  0 ≤ 1 < Z.of_nat (length (frames loaded)) ∧
  exec (loadFrame 1) (exec (loadFrame 1) loaded) = exec (loadFrame 1) loaded.
Proof.
  split; [by vm_compute|].
  apply (C4_loadFrame_idempotent loaded 1). by vm_compute.
Defined.

(** ** Feed loader *)

(** What [loadFrame] never writes. *)
Lemma loadFrame_untouched s i :
  let s' := exec (loadFrame i) s in
  apiData s' = apiData s ∧ frames s' = frames s ∧ playing s' = playing s ∧
  timer s' = timer s ∧ intervals s' = intervals s ∧
  nextInterval s' = nextInterval s ∧ playPause s' = playPause s.
Proof.
  cbv zeta. unfold exec.
  destruct (decide (frames s = [])) as [He|Hne].
  { by rewrite (loadFrame_empty s i He). }
  destruct (loadFrame_cases s i Hne) as (fr & _ & [(l & _ & ->) | [(_ & _ & ->) |
    [(d & _ & _ & _ & ->) | (_ & _ & _ & ->)]]]); done.
Qed.

Lemma onData_run data s :
  let stored := set_frames (composed data) (set_apiData (Some data) s) in
  onData data s =
    if decide (composed data = []) then (set_frameTime (Literal "No data") stored, Ret ())
    else loadFrame (Z.of_nat (length (composed data)) - 1) stored.
Proof.
  cbv zeta. unfold onData, composed. run.
  destruct (radar_of data) as [[[p|] [c|]]|]; cbn;
    rewrite ?app_nil_r;
    repeat match goal with |- context [Z.of_nat (length ?l) =? 0] =>
      destruct l; cbn [length app]; [cbn|] end;
    try reflexivity;
    (case_decide; [done|]);
    (destruct (Z.eqb_spec (Z.of_nat (length (_ :: _))) 0) as [H0|_];
      [cbn [length] in H0; lia|]);
    reflexivity.
Qed.

(** The second [then] and the [catch] after a response that is ok and
    parses: what [onData] throws ends in the text of line 201. *)
Lemma exec_fetchFrames_data status data s :
  exec (fetchFrames (Response true status (Some data))) s =
    let stored := set_frames (composed data) (set_apiData (Some data) s) in
    if decide (composed data = []) then set_frameTime (Literal "No data") stored
    else match result (loadFrame (Z.of_nat (length (composed data)) - 1)) stored with
         | Ret _ => exec (loadFrame (Z.of_nat (length (composed data)) - 1)) stored
         | Throw _ => set_frameTime (Literal "Error loading data")
                        (exec (loadFrame (Z.of_nat (length (composed data)) - 1)) stored)
         end.
Proof.
  unfold fetchFrames, onResponse, exec, result, catch, onError. cbn.
  unfold mbind, M_bind, mret, M_ret, write.
  rewrite onData_run. cbv zeta. case_decide; [done|].
  by destruct (loadFrame _ _) as [t [[]|e]].
Qed.

(** Whatever holds of the page [loadFrame] leaves and does not depend on
    the time text holds after the load. *)
Lemma fetchFrames_data_ind (P : state → Prop) status data s :
  composed data ≠ [] →
  (∀ t ft, P t → P (set_frameTime ft t)) →
  P (exec (loadFrame (Z.of_nat (length (composed data)) - 1))
       (set_frames (composed data) (set_apiData (Some data) s))) →
  P (exec (fetchFrames (Response true status (Some data))) s).
Proof.
  intros Hne Hft HP. rewrite exec_fetchFrames_data. cbv zeta.
  rewrite decide_False by done. destruct (result _ _); auto.
Qed.

Lemma fetchFrames_frames status data s :
  frames (exec (fetchFrames (Response true status (Some data))) s) = composed data.
Proof.
  destruct (decide (composed data = [])) as [He|Hne].
  { rewrite exec_fetchFrames_data. cbv zeta. by rewrite decide_True by done. }
  apply (fetchFrames_data_ind (λ t, frames t = composed data)); [done|done|].
  by destruct (loadFrame_untouched (set_frames (composed data) (set_apiData (Some data) s))
                 (Z.of_nat (length (composed data)) - 1)) as (_ & -> & _).
Qed.

Lemma fetchFrames_failed r s :
  (∀ status data, r ≠ Response true status (Some data)) →
  fetchFrames r s = (set_frameTime (Literal "Error loading data") s, Ret ()).
Proof.
  intros Hr. unfold fetchFrames, onResponse, catch. run.
  destruct r as [|[] status [data|]]; try reflexivity.
  by destruct (Hr status data).
Qed.

(** C2: the frame collection is the past list followed by the nowcast
    list, a missing list counting as empty: past [A, B] and nowcast [C]
    give [A, B, C]; past [A] without nowcast gives [A]; a radar object
    without lists gives the empty collection and the text "No data". *)
Theorem C2_feed_composition (s : state) (status : Z) (h : option string) (A B C : frame)
    (data : feed) :
  let load d := exec (fetchFrames (Response true status (Some d))) s in
  frames (load data) = composed data ∧
  frames (load (Feed h (Some (Radar (Some [A; B]) (Some [C]))))) = [A; B; C] ∧
  frames (load (Feed h (Some (Radar (Some [A]) None)))) = [A] ∧
  frames (load (Feed h (Some (Radar None None)))) = [] ∧
  frameTime (load (Feed h (Some (Radar None None)))) = Literal "No data".
Proof.
  cbv beta zeta. rewrite !fetchFrames_frames.
  do 4 (split; [reflexivity|]).
  by rewrite exec_fetchFrames_data.
Qed.

(** C7: when the response is not ok (status 500, say) or its body does
    not parse, the time text becomes "Error loading data" and nothing
    else on the page changes: frames, current index, layer cache, playing
    flag, stored feed and the layers on the map are as before. *)
Theorem C7_fetch_failure (s : state) (status : Z) (body : option feed) :
  let failed := exec (fetchFrames (Response false status body)) s in
  let garbled := exec (fetchFrames (Response true status None)) s in
  failed = set_frameTime (Literal "Error loading data") s ∧
  garbled = set_frameTime (Literal "Error loading data") s ∧
  exec (fetchFrames (Response false 500 body)) s = failed ∧
  frameTime failed = Literal "Error loading data" ∧
  frames failed = frames s ∧
  currentFrameIndex failed = currentFrameIndex s ∧
  radarLayers failed = radarLayers s ∧
  playing failed = playing s ∧
  apiData failed = apiData s ∧
  mapLayers failed = mapLayers s.
Proof.
  cbv zeta. unfold exec. rewrite !fetchFrames_failed by done. repeat split.
Qed.

(** C8, at the sample feed (past [A, B], nowcast [C]): the loader calls
    [loadFrame] with the last index of the collection, 2, and the frame
    put on the map is the nowcast frame C, while the most recent past
    frame is B at index 1. *)
Theorem C8_default_frame_is_last_of_collection :
  radar_of sampleFeed = Some (Radar (Some [frameA; frameB]) (Some [frameC])) ∧
  frames loaded = [frameA; frameB; frameC] ∧
  currentFrameIndex loaded = 2 ∧
  at_index (frames loaded) (currentFrameIndex loaded) = Some frameC ∧
  frameTime loaded = LocaleString (time frameC * 1000) ∧
  (∃ l, radarLayers loaded !! path frameC = Some l ∧
        activeOverlays loaded = {[ layer_id l ]} ∧
        layer_url l = tilecache +:+ path frameC +:+ urlSuffix) ∧
  radarLayers loaded !! path frameB = None ∧
  last [frameA; frameB] = Some frameB ∧ frameB ≠ frameC.
Proof.
  repeat split; try by vm_compute.
  exists (Layer 1 (tilecache +:+ path frameC +:+ urlSuffix)).
  repeat split; by vm_compute.
Qed.

(** The frame shown after a load is the last frame of the collection;
    it is the last past frame exactly when no nowcast frame follows. *)
Lemma fetchFrames_shows_last status data s :
  composed data ≠ [] →
  let s' := exec (fetchFrames (Response true status (Some data))) s in
  currentFrameIndex s' = Z.of_nat (length (composed data)) - 1 ∧
  at_index (frames s') (currentFrameIndex s') = last (composed data).
Proof.
  intros Hne. cbv zeta.
  pose proof (length_pos _ Hne) as Hn.
  rewrite fetchFrames_frames.
  assert (Hi : currentFrameIndex (exec (fetchFrames (Response true status (Some data))) s)
               = Z.of_nat (length (composed data)) - 1).
  { apply (fetchFrames_data_ind
             (λ t, currentFrameIndex t = Z.of_nat (length (composed data)) - 1)); [done|done|].
    rewrite loadFrame_index by done. cbn [frames set_frames].
    by rewrite normalize_in_range by lia. }
  rewrite Hi. split; [done|].
  unfold at_index. case_match; [lia|].
  rewrite last_lookup. f_equal. lia.
Qed.

(** ** Animation driver *)

Lemma startAnimation_run s :
  startAnimation s =
    if playing s then (s, Ret ()) else
    (set_timer (Some (nextInterval s))
       (set_intervals ({[ nextInterval s ]} ∪ intervals s)
          (set_nextInterval (S (nextInterval s))
             (set_playPause (Literal "Stop") (set_playing true s)))), Ret ()).
Proof. unfold startAnimation, setInterval. run. by destruct (playing s). Qed.

Lemma stopAnimation_run s :
  stopAnimation s =
    if playing s then
      (set_intervals (intervals s ∖ from_option singleton ∅ (timer s))
         (set_playPause (Literal "Play") (set_playing false s)), Ret ())
    else (s, Ret ()).
Proof.
  unfold stopAnimation, clearInterval. run. destruct (playing s); cbn; [|done].
  destruct (timer s); cbn; [done|].
  unfold set_intervals. cbn. by rewrite difference_empty_L.
Qed.

(** What the animation driver never writes. *)
Lemma startAnimation_untouched s :
  let s' := exec startAnimation s in
  apiData s' = apiData s ∧ frames s' = frames s ∧
  currentFrameIndex s' = currentFrameIndex s ∧ radarLayers s' = radarLayers s ∧
  mapLayers s' = mapLayers s ∧ nextLayer s' = nextLayer s ∧ frameTime s' = frameTime s.
Proof. cbv zeta. unfold exec. rewrite startAnimation_run. by destruct (playing s). Qed.

Lemma stopAnimation_untouched s :
  let s' := exec stopAnimation s in
  apiData s' = apiData s ∧ frames s' = frames s ∧
  currentFrameIndex s' = currentFrameIndex s ∧ radarLayers s' = radarLayers s ∧
  mapLayers s' = mapLayers s ∧ nextLayer s' = nextLayer s ∧ frameTime s' = frameTime s.
Proof. cbv zeta. unfold exec. rewrite stopAnimation_run. by destruct (playing s). Qed.

Lemma timer_inv_ext s s' :
  playing s' = playing s → timer s' = timer s → intervals s' = intervals s →
  timer_inv s → timer_inv s'.
Proof. unfold timer_inv. by intros -> -> ->. Qed.

Lemma timer_inv_start s : timer_inv s → timer_inv (exec startAnimation s).
Proof.
  unfold exec, timer_inv. rewrite startAnimation_run.
  destruct (playing s) eqn:Hp; cbn; [by rewrite Hp|].
  intros ->. exists (nextInterval s). split; [done|]. apply union_empty_r_L.
Qed.

Lemma timer_inv_stop s : timer_inv s → timer_inv (exec stopAnimation s).
Proof.
  unfold exec, timer_inv. rewrite stopAnimation_run.
  destruct (playing s) eqn:Hp; cbn; [|by rewrite Hp].
  intros (id & -> & ->). cbn. apply difference_diag_L.
Qed.

Lemma stopAnimation_stops s :
  timer_inv s → playing (exec stopAnimation s) = false ∧ intervals (exec stopAnimation s) = ∅.
Proof.
  intros H. pose proof (timer_inv_stop s H) as H'. unfold timer_inv in H'.
  assert (Hp : playing (exec stopAnimation s) = false).
  { unfold exec. rewrite stopAnimation_run. by destruct (playing s) eqn:E. }
  by rewrite Hp in H'.
Qed.

(** ** Overlays on the map *)

Lemma layers_inv_ext s s' :
  radarLayers s' = radarLayers s → mapLayers s' = mapLayers s → nextLayer s' = nextLayer s →
  layers_inv s → layers_inv s'.
Proof. intros Hc Hm Hn [? ? ? ?]. split; rewrite ?Hc, ?Hm, ?Hn; done. Qed.

Lemma shown_inv_ext s s' :
  apiData s' = apiData s → frames s' = frames s →
  currentFrameIndex s' = currentFrameIndex s →
  radarLayers s' = radarLayers s → mapLayers s' = mapLayers s →
  shown_inv s → shown_inv s'.
Proof. unfold shown_inv. by intros -> -> -> -> ->. Qed.

(** After clearing, only the base map is left. *)
Lemma cleared_base s (cache : gmap string layer) :
  layers_inv s →
  radarLayers s ⊆ cache →
  (∀ k l, cache !! k = Some l → layer_id l ≠ baseLayer) →
  cleared cache (mapLayers s) = {[ baseLayer ]}.
Proof.
  intros [_ Hb _ Hs] Hsub Hc. apply set_eq. intros x.
  rewrite elem_of_cleared, elem_of_singleton. split.
  - intros [Hx Hno]. destruct (Hs x Hx) as [->|(k & l & Hk & <-)]; [done|].
    exfalso. eapply Hno; [|done]. eapply lookup_weaken; eauto.
  - intros ->. split; [done|]. intros k l Hk. by apply (Hc k l).
Qed.

Lemma loadFrame_inv s i :
  layers_inv s → (frames s ≠ [] → is_Some (apiData s)) →
  (frames s = [] → shown_inv s) →
  layers_inv (exec (loadFrame i) s) ∧ shown_inv (exec (loadFrame i) s).
Proof.
  intros HL Hd HS. unfold exec.
  destruct (decide (frames s = [])) as [He|Hne].
  { rewrite (loadFrame_empty s i He). auto. }
  destruct (Hd Hne) as [d Hdata].
  pose proof (length_pos _ Hne) as Hn.
  pose proof (normalize_range i _ Hn) as Hi.
  destruct (loadFrame_cases s i Hne) as (fr & Hfr & Hcases).
  destruct Hcases as [(l & Hl & ->) | [(Hl & Hp & ->) |
    [(d' & Hl & Hp & Hd' & ->) | (Hl & Hp & Hd' & ->)]]]; cbn [fst].
  - rewrite (cleared_base s (radarLayers s) HL) by (done || apply HL).
    split.
    + destruct HL as [? ? Hc ?]. split; cbn; [done | by apply elem_of_union_r, elem_of_singleton | done |].
      intros x [->%elem_of_singleton| ->%elem_of_singleton]%elem_of_union; eauto.
    + unfold shown_inv. fields. rewrite decide_False by done.
      split; [by rewrite Hdata|]. split; [done|]. exists fr. split; [done|]. by rewrite Hl.
  - rewrite (cleared_base s (radarLayers s) HL) by (done || apply HL).
    split.
    + destruct HL as [? ? Hc ?]. split; cbn; [done | by apply elem_of_singleton | done |].
      intros x ->%elem_of_singleton. by left.
    + unfold shown_inv. fields. rewrite decide_False by done.
      split; [by rewrite Hdata|]. split; [done|]. exists fr. split; [done|]. by rewrite Hl.
  - set (new := Layer (nextLayer s) _). set (cache := <[path fr := new]> (radarLayers s)).
    assert (Hc' : ∀ k l, cache !! k = Some l → layer_id l ≠ baseLayer).
    { intros k l. unfold cache. rewrite lookup_insert. case_decide.
      - intros [= <-]. cbn. destruct HL. lia.
      - apply HL. }
    rewrite (cleared_base s cache HL) by (done || by apply insert_subseteq).
    split.
    + destruct HL as [? ? Hc ?]. split; cbn; [lia | by apply elem_of_union_r, elem_of_singleton | done |].
      intros x [->%elem_of_singleton| ->%elem_of_singleton]%elem_of_union; [|by left].
      right. exists (path fr), new. split; [apply lookup_insert_eq|done].
    + unfold shown_inv. fields. rewrite decide_False by done.
      split; [by rewrite Hdata|]. split; [done|].
      exists fr. split; [done|]. unfold cache. by rewrite lookup_insert_eq.
  - congruence.
Qed.

(** ** The invariant holds in every reachable state *)

Ltac split_inv := split; [|split; [|split]].

Lemma shown_inv_data s : shown_inv s → frames s ≠ [] → is_Some (apiData s).
Proof. unfold shown_inv. intros H Hne. rewrite decide_False in H by done. apply H. Qed.

Lemma inv_initial ft pp : inv false (initial ft pp).
Proof.
  split; [done|]. split; [|done]. split; cbn.
  - unfold baseLayer. lia.
  - by apply elem_of_singleton.
  - intros k l. by rewrite lookup_empty.
  - intros x ->%elem_of_singleton. by left.
Qed.

Lemma inv_loadFrame b s i : inv b s → inv b (exec (loadFrame i) s).
Proof.
  intros (HT & HL & HS & HF).
  destruct (loadFrame_untouched s i) as (Ed & Ef & Ep & Et & Ei & _).
  destruct (loadFrame_inv s i HL (shown_inv_data s HS) (λ _, HS)) as [HL' HS'].
  split_inv; try done.
  - by apply (timer_inv_ext s).
  - intros Hb. rewrite Ef. auto.
Qed.

Lemma inv_startAnimation b s : inv b s → inv b (exec startAnimation s).
Proof.
  intros (HT & HL & HS & HF).
  destruct (startAnimation_untouched s) as (Ed & Ef & Ei & Ec & Em & En & _).
  split_inv.
  - by apply timer_inv_start.
  - by apply (layers_inv_ext s).
  - by apply (shown_inv_ext s).
  - intros Hb. rewrite Ef. auto.
Qed.

Lemma inv_stopAnimation b s : inv b s → inv b (exec stopAnimation s).
Proof.
  intros (HT & HL & HS & HF).
  destruct (stopAnimation_untouched s) as (Ed & Ef & Ei & Ec & Em & En & _).
  split_inv.
  - by apply timer_inv_stop.
  - by apply (layers_inv_ext s).
  - by apply (shown_inv_ext s).
  - intros Hb. rewrite Ef. auto.
Qed.

Lemma stopAnimation_returns s : stopAnimation s = (exec stopAnimation s, Ret ()).
Proof. unfold exec. rewrite stopAnimation_run. by destruct (playing s). Qed.

Lemma step_prev s :
  step ClickPrevFrame s =
    exec (loadFrame (currentFrameIndex (exec stopAnimation s) - 1)) (exec stopAnimation s).
Proof.
  unfold step, handler, exec at 1.
  by rewrite (exec_bind _ _ _ _ _ (stopAnimation_returns s)).
Qed.

Lemma step_next s :
  step ClickNextFrame s =
    exec (loadFrame (currentFrameIndex (exec stopAnimation s) + 1)) (exec stopAnimation s).
Proof.
  unfold step, handler, exec at 1.
  by rewrite (exec_bind _ _ _ _ _ (stopAnimation_returns s)).
Qed.

Lemma inv_step b s e : inv b s → inv b (step e s).
Proof.
  intros H. destruct e as [| | |id|i].
  - unfold step, handler, exec. run.
    destruct (playing s); [by apply inv_stopAnimation | by apply inv_startAnimation].
  - rewrite step_prev. by apply inv_loadFrame, inv_stopAnimation.
  - rewrite step_next. by apply inv_loadFrame, inv_stopAnimation.
  - unfold step, handler, exec. run. case_decide; [|done].
    by apply (inv_loadFrame b s (currentFrameIndex s + 1)).
  - by apply inv_loadFrame.
Qed.

Lemma inv_set_frameTime b t ft : inv b t → inv b (set_frameTime ft t).
Proof.
  intros (HT & HL & HS & HF).
  split_inv; [done | by apply (layers_inv_ext t) | by apply (shown_inv_ext t) | done].
Qed.

Lemma fetched_cases r :
  (∃ status data, r = Response true status (Some data)) ∨
  (∀ status data, r ≠ Response true status (Some data)).
Proof. destruct r as [|[] status [data|]]; eauto. Qed.

Lemma inv_fetchFrames s r : inv false s → inv true (exec (fetchFrames r) s).
Proof.
  intros (HT & HL & HS & HF). specialize (HF eq_refl).
  destruct (fetched_cases r) as [(status & data & ->)|Hr].
  - destruct (decide (composed data = [])) as [Hc|Hc].
    + rewrite exec_fetchFrames_data. cbv zeta. rewrite decide_True by done.
      split_inv; [done | by apply (layers_inv_ext s) | | done].
      unfold shown_inv in *. rewrite decide_True in HS by done.
      by rewrite decide_True by done.
    + apply (fetchFrames_data_ind (inv true)); [done | intros; by apply inv_set_frameTime |].
      set (stored := set_frames _ _).
      assert (HL' : layers_inv stored) by by apply (layers_inv_ext s).
      destruct (loadFrame_untouched stored (Z.of_nat (length (composed data)) - 1))
        as (Ed & Ef & Ep & Et & Ei & _).
      destruct (loadFrame_inv stored (Z.of_nat (length (composed data)) - 1) HL')
        as [HL'' HS'']; [by eexists|done|].
      split_inv; try done.
      by apply (timer_inv_ext s).
  - unfold exec. rewrite fetchFrames_failed by done. cbn [fst].
    split_inv; [done | by apply (layers_inv_ext s) | by apply (shown_inv_ext s) | done].
Qed.

Lemma reach_inv b s : reach b s → inv b s.
Proof.
  induction 1 as [ft pp|b s e _ IH|s r _ IH].
  - apply inv_initial.
  - by apply inv_step.
  - by apply inv_fetchFrames.
Qed.

Lemma reach_loadFrames b s positions : reach b s → reach b (loadFrames positions s).
Proof.
  revert s. induction positions as [|i positions IH]; intros s H; [done|].
  apply IH. exact (reach_step b s (CallLoadFrame i) H).
Qed.

Lemma overlay_alone (id : nat) :
  id ≠ baseLayer → (({[ id ]} ∪ {[ baseLayer ]}) ∖ {[ baseLayer ]} : gset nat) = {[ id ]}.
Proof.
  intros Hid. apply set_eq. intros x.
  rewrite elem_of_difference, elem_of_union, !elem_of_singleton.
  split; [intros [[?|?] ?]; done | intros ->; auto].
Qed.

(** What is on the map beside the base layer: nothing without frames;
    with frames, the layer of the current frame, or nothing when the
    frame's path is a name of [Object.prototype]. *)
Lemma inv_overlays b s :
  inv b s →
  (frames s = [] → activeOverlays s = ∅) ∧
  (frames s ≠ [] →
   ∃ fr, at_index (frames s) (currentFrameIndex s) = Some fr ∧
         match radarLayers s !! path fr with
         | Some l => activeOverlays s = {[ layer_id l ]}
         | None => inherited (path fr) = true ∧ activeOverlays s = ∅
         end).
Proof.
  intros (_ & HL & HS & _). unfold shown_inv, activeOverlays in *. split; intros Hf.
  - rewrite decide_True in HS by done. rewrite HS. apply difference_diag_L.
  - rewrite decide_False in HS by done.
    destruct HS as (_ & _ & fr & Hfr & Hm). exists fr. split; [done|].
    destruct (radarLayers s !! path fr) as [l|] eqn:Hl.
    + rewrite Hm. apply overlay_alone. by apply (inv_cache s HL _ _ Hl).
    + destruct Hm as [Hp ->]. split; [done|]. apply difference_diag_L.
Qed.

(** C5, at the feed whose one frame has the path "constructor": the page
    is reachable and its frame collection is not empty, yet no overlay is
    on the map; line 91 took the inherited [Object.prototype.constructor]
    for a cached layer, no layer was made, line 103 threw and the [catch]
    wrote its text.  A further [loadFrame] clears and throws again. *)
Theorem C5_no_overlay_for_prototype_path :
  reach true stuck ∧
  frames stuck = [frameP] ∧
  currentFrameIndex stuck = 0 ∧
  radarLayers stuck !! path frameP = None ∧
  nextLayer stuck = 1%nat ∧
  activeOverlays stuck = ∅ ∧
  size (activeOverlays stuck) = 0%nat ∧
  frameTime stuck = Literal "Error loading data" ∧
  result (loadFrame 0) stuck = Throw TypeError ∧
  size (activeOverlays (exec (loadFrame 0) stuck)) = 0%nat.
Proof.
  split; [exact (reach_fetch _ _ (reach_initial _ _))|].
  repeat split; by vm_compute.
Qed.

(** C6: [startAnimation] while playing and [stopAnimation] while stopped
    change nothing; after two starts in a row exactly one interval is
    active and [playing] is true; in every reachable state an interval is
    active if and only if [playing] is true, and it is the one held in
    [timer]. *)
Theorem C6_start_stop_toggle (settled : bool) (s : state) :
  reach settled s →
  (playing s = true → startAnimation s = (s, Ret ())) ∧
  (playing s = false → stopAnimation s = (s, Ret ())) ∧
  (let s2 := exec startAnimation (exec startAnimation s) in
   s2 = exec startAnimation s ∧ playing s2 = true ∧ size (intervals s2) = 1%nat) ∧
  (intervals s ≠ ∅ ↔ playing s = true) ∧
  (playing s = true → ∃ id, timer s = Some id ∧ intervals s = {[ id ]}).
Proof.
  intros H. destruct (reach_inv _ _ H) as (HT & _).
  split; [|split; [|split; [|split]]].
  - intros Hp. rewrite startAnimation_run. by rewrite Hp.
  - intros Hp. rewrite stopAnimation_run. by rewrite Hp.
  - cbv zeta.
    assert (Hp : playing (exec startAnimation s) = true).
    { unfold exec. rewrite startAnimation_run. by destruct (playing s) eqn:E. }
    assert (E : exec startAnimation (exec startAnimation s) = exec startAnimation s).
    { unfold exec at 1. rewrite startAnimation_run. by rewrite Hp. }
    rewrite E. split; [done|]. split; [done|].
    pose proof (timer_inv_start s HT) as HT'. unfold timer_inv in HT'. rewrite Hp in HT'.
    destruct HT' as (id & _ & ->). apply size_singleton.
  - unfold timer_inv in HT. destruct (playing s).
    + destruct HT as (id & _ & ->). split; [done|]. intros _ He.
      assert (Hid : id ∈ (∅ : gset nat)) by (rewrite <- He; by apply elem_of_singleton).
      by apply not_elem_of_empty in Hid.
    + rewrite HT. split; [done|]. discriminate.
  - intros Hp. unfold timer_inv in HT. by rewrite Hp in HT.
Qed.

Lemma C6_start_stop_toggle_witness :
  reach false blank ∧
  playing (exec startAnimation (exec startAnimation blank)) = true ∧
  size (intervals (exec startAnimation (exec startAnimation blank))) = 1%nat.
Proof.
  assert (H : reach false blank) by exact (reach_initial _ _).
  split; [exact H|].
  destruct (C6_start_stop_toggle false blank H) as (_ & _ & (_ & Hp & Hn) & _).
  split; [exact Hp | exact Hn].
Defined.

(** C10 as stated fails before any frame has arrived: the "next frame"
    and "previous frame" handlers leave the index of the blank page at 0,
    which is neither one position on nor one position back. *)
Lemma C10_counterexample :
  reach false blank ∧
  frames blank = [] ∧
  currentFrameIndex blank = 0 ∧
  currentFrameIndex (step ClickNextFrame blank) = 0 ∧
  currentFrameIndex (step ClickPrevFrame blank) = 0 ∧
  ¬ cyclic_succ (Z.of_nat (length (frames blank))) (currentFrameIndex blank)
      (currentFrameIndex (step ClickNextFrame blank)) ∧
  ¬ cyclic_pred (Z.of_nat (length (frames blank))) (currentFrameIndex blank)
      (currentFrameIndex (step ClickPrevFrame blank)).
Proof.
  split; [exact (reach_initial _ _)|].
  assert (En : currentFrameIndex (step ClickNextFrame blank) = 0) by by vm_compute.
  assert (Ep : currentFrameIndex (step ClickPrevFrame blank) = 0) by by vm_compute.
  rewrite En, Ep. do 4 (split; [reflexivity|]).
  change (frames blank) with (@nil frame). change (currentFrameIndex blank) with 0.
  unfold cyclic_succ, cyclic_pred. cbn [length]. lia.
Qed.

(** C10, amended: in every reachable state the "previous frame" and
    "next frame" handlers leave [playing] false and no interval active;
    when the frame collection is non-empty the current index moves by
    exactly one position, with wrap-around; when it is empty the index
    stays where it was. *)
Theorem C10_step_controls (settled : bool) (s : state) :
  reach settled s →
  let n := Z.of_nat (length (frames s)) in
  let p := step ClickPrevFrame s in
  let q := step ClickNextFrame s in
  playing p = false ∧ intervals p = ∅ ∧
  playing q = false ∧ intervals q = ∅ ∧
  (frames s ≠ [] →
   cyclic_pred n (currentFrameIndex s) (currentFrameIndex p) ∧
   cyclic_succ n (currentFrameIndex s) (currentFrameIndex q)) ∧
  (frames s = [] →
   currentFrameIndex p = currentFrameIndex s ∧ currentFrameIndex q = currentFrameIndex s).
Proof.
  intros H n p q. destruct (reach_inv _ _ H) as (HT & _ & HS & _).
  destruct (stopAnimation_stops s HT) as [Hp Hi].
  destruct (stopAnimation_untouched s) as (_ & Ef & Ec & _).
  unfold p, q. rewrite step_prev, step_next, Ec.
  set (s0 := exec stopAnimation s) in *.
  destruct (loadFrame_untouched s0 (currentFrameIndex s - 1)) as (_ & _ & -> & _ & -> & _).
  destruct (loadFrame_untouched s0 (currentFrameIndex s + 1)) as (_ & _ & -> & _ & -> & _).
  do 4 (split; [done|]). split; intros Hf.
  - assert (Hf0 : frames s0 ≠ []) by by rewrite Ef.
    rewrite !loadFrame_index, Ef by done. fold n.
    unfold shown_inv in HS. rewrite decide_False in HS by done.
    destruct HS as (_ & Hrange & _). fold n in Hrange.
    unfold cyclic_pred, cyclic_succ, normalize. split; repeat case_match; lia.
  - assert (Hf0 : frames s0 = []) by by rewrite Ef.
    unfold exec. rewrite !loadFrame_empty by done. cbn [fst]. by rewrite Ec.
Qed.

Lemma C10_step_controls_witness :
  reach true loaded ∧
  playing (step ClickNextFrame loaded) = false ∧
  intervals (step ClickNextFrame loaded) = ∅ ∧
  cyclic_succ 3 2 (currentFrameIndex (step ClickNextFrame loaded)).
Proof.
  assert (H : reach true loaded) by exact (reach_fetch _ _ (reach_initial _ _)).
  split; [exact H|].
  destruct (C10_step_controls true loaded H) as (_ & _ & Hp & Hi & Hs & _).
  split; [exact Hp|]. split; [exact Hi|].
  apply Hs. by vm_compute.
Defined.

(** * Further properties of the script *)

(** ** [loadFrame] once a feed is stored *)

Lemma tileUrl_eq d p : str (host d) .+. (p .+. urlSuffix) = tileUrl d p.
Proof. reflexivity. Qed.

(** The one description of a [loadFrame] that gets through: the frame at
    the wrapped position, its layer, found or made, and what is written.
    It gets through when the frame's path has a layer in the cache or is
    not a name of [Object.prototype]. *)
Lemma loadFrame_spec s i d fr :
  frames s ≠ [] → apiData s = Some d →
  at_index (frames s) (normalize i (Z.of_nat (length (frames s)))) = Some fr →
  is_Some (radarLayers s !! path fr) ∨ inherited (path fr) = false →
  let s' := exec (loadFrame i) s in
  ∃ l,
    loadFrame i s = (s', Ret ()) ∧
    currentFrameIndex s' = normalize i (Z.of_nat (length (frames s))) ∧
    frameTime s' = LocaleString (time fr * 1000) ∧
    radarLayers s' !! path fr = Some l ∧
    mapLayers s' = {[ layer_id l ]} ∪ cleared (radarLayers s') (mapLayers s) ∧
    ((radarLayers s !! path fr = Some l ∧
      radarLayers s' = radarLayers s ∧ nextLayer s' = nextLayer s) ∨
     (radarLayers s !! path fr = None ∧
      l = Layer (nextLayer s) (tileUrl d (path fr)) ∧
      radarLayers s' = <[path fr := l]> (radarLayers s) ∧
      nextLayer s' = S (nextLayer s))).
Proof.
  intros Hne Hd Hfr Hok s'.
  destruct (loadFrame_cases s i Hne) as (fr' & Hfr' & Hcases).
  assert (fr' = fr) as -> by congruence. clear Hfr'. unfold s', exec.
  destruct Hcases as [(l & Hl & ->) | [(Hl & Hp & _) |
    [(d' & Hl & Hp & Hd' & ->) | (Hl & Hp & Hd' & _)]]].
  - exists l. fields. do 5 (split; [done|]). by left.
  - destruct Hok as [[l Hl']|Hp']; congruence.
  - assert (d' = d) as -> by congruence.
    exists (Layer (nextLayer s) (tileUrl d (path fr))). fields.
    do 3 (split; [done|]). split; [apply lookup_insert_eq|]. split; [done|]. by right.
  - congruence.
Qed.

(** A frame whose path is a name of [Object.prototype], with no layer of
    its own: the index moves, the map is cleared, the time text stays,
    and [loadFrame] throws. *)
Lemma loadFrame_spec_inherited s i fr :
  frames s ≠ [] →
  at_index (frames s) (normalize i (Z.of_nat (length (frames s)))) = Some fr →
  radarLayers s !! path fr = None → inherited (path fr) = true →
  let s' := exec (loadFrame i) s in
  loadFrame i s = (s', Throw TypeError) ∧
  currentFrameIndex s' = normalize i (Z.of_nat (length (frames s))) ∧
  frameTime s' = frameTime s ∧
  radarLayers s' = radarLayers s ∧ nextLayer s' = nextLayer s ∧
  mapLayers s' = cleared (radarLayers s) (mapLayers s).
Proof.
  intros Hne Hfr Hl Hp s'. unfold s', exec.
  by rewrite (loadFrame_inherited s i Hne fr Hfr Hl Hp).
Qed.

Lemma exec_nextFrame s : exec nextFrame s = exec (loadFrame (currentFrameIndex s + 1)) s.
Proof. reflexivity. Qed.

Lemma exec_prevFrame s : exec prevFrame s = exec (loadFrame (currentFrameIndex s - 1)) s.
Proof. reflexivity. Qed.

Lemma steps_app es1 es2 s : steps (es1 ++ es2) s = steps es2 (steps es1 s).
Proof. apply foldl_app. Qed.

Lemma reach_steps b s es : reach b s → reach b (steps es s).
Proof.
  revert s. induction es as [|e es IH]; intros s H; [done|].
  apply IH. by apply reach_step.
Qed.

Lemma reach_advance b s k : reach b s → reach b (advance k s).
Proof.
  intros H. induction k as [|k IH]; [done|].
  change (advance (S k) s) with (exec nextFrame (advance k s)).
  rewrite exec_nextFrame.
  exact (reach_step b _ (CallLoadFrame (currentFrameIndex (advance k s) + 1)) IH).
Qed.

(** ** Clearing the map *)

Lemma exec_clearRadarLayers s :
  exec clearRadarLayers s = set_mapLayers (cleared (radarLayers s) (mapLayers s)) s.
Proof. reflexivity. Qed.

(** X1: [clearRadarLayers] takes off the map exactly the layers that are
    in the cache and leaves every other layer (the base map among them)
    where it is; it writes nothing but the map, it does not throw, and
    running it again changes nothing. *)
Theorem X1_clearRadarLayers_exact (s : state) :
  let s' := exec clearRadarLayers s in
  (∀ x, x ∈ mapLayers s' ↔
        x ∈ mapLayers s ∧ ∀ k l, radarLayers s !! k = Some l → layer_id l ≠ x) ∧
  s' = set_mapLayers (mapLayers s') s ∧
  exec clearRadarLayers s' = s' ∧
  result clearRadarLayers s = Ret ().
Proof.
  cbv zeta. rewrite !exec_clearRadarLayers.
  cbn [mapLayers radarLayers set_mapLayers].
  split; [intros x; apply elem_of_cleared|].
  split; [done|]. split; [|done].
  unfold set_mapLayers. cbn [apiData frames currentFrameIndex radarLayers playing timer
    mapLayers nextLayer intervals nextInterval frameTime playPause].
  by rewrite cleared_idem.
Qed.

(** ** What the handlers are, event by event *)

Lemma step_toggle s :
  step ClickPlayPause s = if playing s then exec stopAnimation s else exec startAnimation s.
Proof. unfold step, handler, exec. run. by destruct (playing s). Qed.

Lemma step_tick s id :
  step (Tick id) s = if decide (id ∈ intervals s) then exec nextFrame s else s.
Proof. unfold step, handler, exec. run. by case_decide. Qed.

Lemma step_call s i : step (CallLoadFrame i) s = exec (loadFrame i) s.
Proof. reflexivity. Qed.

(** ** The feed and the frames are written by the loader alone *)

Lemma step_feed s e : apiData (step e s) = apiData s ∧ frames (step e s) = frames s.
Proof.
  destruct (stopAnimation_untouched s) as (Sd & Sf & _).
  destruct (startAnimation_untouched s) as (Td & Tf & _).
  destruct e as [| | |id|i].
  - rewrite step_toggle. by destruct (playing s).
  - rewrite step_prev.
    destruct (loadFrame_untouched (exec stopAnimation s)
                (currentFrameIndex (exec stopAnimation s) - 1)) as (-> & -> & _). done.
  - rewrite step_next.
    destruct (loadFrame_untouched (exec stopAnimation s)
                (currentFrameIndex (exec stopAnimation s) + 1)) as (-> & -> & _). done.
  - rewrite step_tick. case_decide; [|done]. rewrite exec_nextFrame.
    by destruct (loadFrame_untouched s (currentFrameIndex s + 1)) as (-> & -> & _).
  - rewrite step_call. by destruct (loadFrame_untouched s i) as (-> & -> & _).
Qed.

(** X2: no click, tick or direct [loadFrame] call, and no run of them,
    changes the stored feed or the frame collection. *)
Theorem X2_events_keep_feed_and_frames (s : state) (es : list event) :
  apiData (steps es s) = apiData s ∧ frames (steps es s) = frames s.
Proof.
  revert s. induction es as [|e es IH]; intros s; [done|].
  change (steps (e :: es) s) with (steps es (step e s)).
  destruct (IH (step e s)) as [-> ->]. apply step_feed.
Qed.

(** ** Before frames have arrived *)

Lemma exec_loadFrame_empty s i : frames s = [] → exec (loadFrame i) s = s.
Proof. intros He. unfold exec. by rewrite loadFrame_empty. Qed.

Lemma step_blank s e :
  frames s = [] →
  let s' := step e s in
  apiData s' = apiData s ∧ frames s' = frames s ∧
  currentFrameIndex s' = currentFrameIndex s ∧ radarLayers s' = radarLayers s ∧
  mapLayers s' = mapLayers s ∧ nextLayer s' = nextLayer s ∧ frameTime s' = frameTime s.
Proof.
  intros He. cbv zeta.
  pose proof (stopAnimation_untouched s) as HS.
  pose proof (startAnimation_untouched s) as HT. cbv zeta in HS, HT.
  assert (He' : frames (exec stopAnimation s) = []) by (by destruct HS as (_ & -> & _)).
  destruct e as [| | |id|i].
  - rewrite step_toggle. by destruct (playing s).
  - rewrite step_prev, exec_loadFrame_empty by done. exact HS.
  - rewrite step_next, exec_loadFrame_empty by done. exact HS.
  - rewrite step_tick. case_decide; [|done].
    by rewrite exec_nextFrame, exec_loadFrame_empty.
  - by rewrite step_call, exec_loadFrame_empty.
Qed.

(** X3: as long as the frame collection is empty (before the feed has
    arrived, after a failed load, after a load without frames) no click,
    tick or [loadFrame] call shows anything: feed, frames, index, cache,
    layers on the map, layer count and time text stay as they are. *)
Theorem X3_nothing_shown_without_frames (s : state) (es : list event) :
  frames s = [] →
  let s' := steps es s in
  apiData s' = apiData s ∧ frames s' = [] ∧
  currentFrameIndex s' = currentFrameIndex s ∧ radarLayers s' = radarLayers s ∧
  mapLayers s' = mapLayers s ∧ nextLayer s' = nextLayer s ∧ frameTime s' = frameTime s.
Proof.
  revert s. induction es as [|e es IH]; intros s He.
  { cbv zeta. change (steps [] s) with s. by rewrite He. }
  cbv zeta. change (steps (e :: es) s) with (steps es (step e s)).
  destruct (step_blank s e He) as (Ed & Ef & Ei & Ec & Em & En & Et).
  rewrite He in Ef.
  destruct (IH (step e s) Ef) as (-> & -> & -> & -> & -> & -> & ->).
  by rewrite Ed, Ei, Ec, Em, En, Et.
Qed.

Lemma X3_nothing_shown_without_frames_witness :
  frames failed = [] ∧
  mapLayers (steps [ClickPlayPause; Tick 1; ClickNextFrame; CallLoadFrame 7] failed)
    = mapLayers failed ∧
  frameTime (steps [ClickPlayPause; Tick 1; ClickNextFrame; CallLoadFrame 7] failed)
    = Literal "Error loading data".
Proof.
  split; [by vm_compute|].
  destruct (X3_nothing_shown_without_frames failed
              [ClickPlayPause; Tick 1%nat; ClickNextFrame; CallLoadFrame 7])
    as (_ & _ & _ & _ & Hm & _ & Ht); [by vm_compute|].
  split; [exact Hm|]. rewrite Ht. by vm_compute.
Defined.

(** ** The cache only grows *)

Lemma loadFrame_cache_grows s i :
  radarLayers s ⊆ radarLayers (exec (loadFrame i) s) ∧
  (nextLayer s ≤ nextLayer (exec (loadFrame i) s))%nat.
Proof.
  unfold exec.
  destruct (decide (frames s = [])) as [He|Hne].
  { by rewrite (loadFrame_empty s i He). }
  destruct (loadFrame_cases s i Hne) as (fr & Hfr & [(l & Hl & ->) | [(Hl & Hp & ->) |
    [(d & Hl & Hp & Hd & ->) | (Hl & Hp & Hd & ->)]]]); fields; try done.
  split; [by apply insert_subseteq | lia].
Qed.

Lemma step_cache_grows s e :
  radarLayers s ⊆ radarLayers (step e s) ∧ (nextLayer s ≤ nextLayer (step e s))%nat.
Proof.
  destruct (stopAnimation_untouched s) as (_ & _ & _ & Sc & _ & Sn & _).
  destruct (startAnimation_untouched s) as (_ & _ & _ & Tc & _ & Tn & _).
  destruct e as [| | |id|i].
  - rewrite step_toggle. destruct (playing s); [by rewrite Sc, Sn | by rewrite Tc, Tn].
  - rewrite step_prev. rewrite <- Sc at 1. rewrite <- Sn at 1. apply loadFrame_cache_grows.
  - rewrite step_next. rewrite <- Sc at 1. rewrite <- Sn at 1. apply loadFrame_cache_grows.
  - rewrite step_tick. case_decide; [|done]. rewrite exec_nextFrame.
    apply loadFrame_cache_grows.
  - apply loadFrame_cache_grows.
Qed.

Lemma steps_cache_grows s es :
  radarLayers s ⊆ radarLayers (steps es s) ∧ (nextLayer s ≤ nextLayer (steps es s))%nat.
Proof.
  revert s. induction es as [|e es IH]; intros s; [done|].
  change (steps (e :: es) s) with (steps es (step e s)).
  destruct (step_cache_grows s e) as [H1 H2]. destruct (IH (step e s)) as [H3 H4].
  split; [by transitivity (radarLayers (step e s)) | lia].
Qed.

Lemma fetchFrames_cache_grows s r :
  radarLayers s ⊆ radarLayers (exec (fetchFrames r) s).
Proof.
  destruct (fetched_cases r) as [(status & data & ->)|Hr].
  - destruct (decide (composed data = [])) as [Hc|Hc].
    + rewrite exec_fetchFrames_data. cbv zeta. by rewrite decide_True by done.
    + apply (fetchFrames_data_ind (λ t, radarLayers s ⊆ radarLayers t)); [done|done|].
      apply (loadFrame_cache_grows (set_frames (composed data) (set_apiData (Some data) s))).
  - unfold exec. by rewrite fetchFrames_failed.
Qed.

(** X4: a layer once filed in the cache under a path stays filed under
    it, the same layer object, through every event and through the
    settling of the fetch: the cache is never emptied and no entry is
    replaced.  The count of layers made never goes down. *)
Theorem X4_cache_only_grows (s : state) (es : list event) (r : fetched) :
  radarLayers s ⊆ radarLayers (steps es s) ∧
  radarLayers s ⊆ radarLayers (exec (fetchFrames r) s) ∧
  (∀ p l, radarLayers s !! p = Some l → radarLayers (steps es s) !! p = Some l) ∧
  (nextLayer s ≤ nextLayer (steps es s))%nat.
Proof.
  destruct (steps_cache_grows s es) as [Hc Hn].
  split; [done|]. split; [apply fetchFrames_cache_grows|]. split; [|done].
  intros p l Hp. by apply (lookup_weaken _ _ _ _ Hp).
Qed.

(** ** What the cache and the texts keep *)

Lemma cache_inv_ext s s' :
  apiData s' = apiData s → frames s' = frames s →
  radarLayers s' = radarLayers s → nextLayer s' = nextLayer s →
  cache_inv s → cache_inv s'.
Proof. intros Hd Hf Hc Hn [? ? ? ? ? ?]. split; rewrite ?Hd, ?Hf, ?Hc, ?Hn; done. Qed.

Lemma at_index_elem_of fs i fr : at_index fs i = Some fr → fr ∈ fs.
Proof.
  unfold at_index. case_match; [done|]. intros Hfr. by apply list_elem_of_lookup_2 in Hfr.
Qed.

Lemma cache_inv_insert s d fr :
  cache_inv s → apiData s = Some d → fr ∈ frames s → radarLayers s !! path fr = None →
  inherited (path fr) = false →
  let l := Layer (nextLayer s) (tileUrl d (path fr)) in
  ∀ s', apiData s' = apiData s → frames s' = frames s →
        radarLayers s' = <[path fr := l]> (radarLayers s) →
        nextLayer s' = S (nextLayer s) →
        cache_inv s'.
Proof.
  intros [Hcount Hbelow Hdist Hurl Hkeys Hown] Hd Hfr Hl Hp l s' Ed Ef Ec En.
  split; rewrite ?Ed, ?Ef, ?Ec, ?En.
  - by rewrite map_size_insert_None, Hcount.
  - intros k l'. rewrite lookup_insert. case_decide.
    + intros [= <-]. cbn. rewrite Hcount. unfold baseLayer. lia.
    + intros Hk. specialize (Hbelow k l' Hk). lia.
  - intros k1 k2 l1 l2. rewrite !lookup_insert. repeat case_decide; subst.
    + done.
    + intros [= <-] Hk2 E. cbn in E. specialize (Hbelow k2 l2 Hk2). lia.
    + intros Hk1 [= <-] E. cbn in E. specialize (Hbelow k1 l1 Hk1). lia.
    + apply Hdist.
  - intros k l'. rewrite lookup_insert. case_decide; subst.
    + intros [= <-]. by exists d.
    + apply Hurl.
  - intros k l'. rewrite lookup_insert. case_decide; subst.
    + intros _. by exists fr.
    + apply Hkeys.
  - intros k l'. rewrite lookup_insert. case_decide; subst.
    + done.
    + apply Hown.
Qed.

Lemma cache_inv_loadFrame s i : cache_inv s → cache_inv (exec (loadFrame i) s).
Proof.
  intros HC. unfold exec.
  destruct (decide (frames s = [])) as [He|Hne].
  { by rewrite (loadFrame_empty s i He). }
  destruct (loadFrame_cases s i Hne) as (fr & Hfr & [(l & Hl & ->) | [(Hl & Hp & ->) |
    [(d & Hl & Hp & Hd & ->) | (Hl & Hp & Hd & ->)]]]); cbn [fst].
  - by apply (cache_inv_ext s).
  - by apply (cache_inv_ext s).
  - by apply (cache_inv_insert s d fr HC Hd (at_index_elem_of _ _ _ Hfr) Hl Hp).
  - by apply (cache_inv_ext s).
Qed.

Lemma text_inv_loadFrame s i :
  (frames s ≠ [] → is_Some (apiData s)) → text_inv (exec (loadFrame i) s).
Proof.
  intros Hd. destruct (loadFrame_untouched s i) as (_ & Ef & _).
  unfold text_inv. rewrite Ef. intros Hne. destruct (Hd Hne) as [d Hdata]. unfold exec.
  destruct (loadFrame_cases s i Hne) as (fr & Hfr & [(l & Hl & ->) | [(Hl & Hp & ->) |
    [(d' & Hl & Hp & Hd' & ->) | (Hl & Hp & Hd' & ->)]]]); fields.
  - by exists fr.
  - exists fr. split; [done|]. by rewrite Hp.
  - by exists fr.
  - congruence.
Qed.

(** After a load with frames: the last frame of the collection is the
    current one; either [loadFrame] got through, or the frame's path is
    a name of [Object.prototype], [loadFrame] threw and the [catch]
    wrote its text. *)
Lemma fetchFrames_loaded status data s :
  composed data ≠ [] →
  let stored := set_frames (composed data) (set_apiData (Some data) s) in
  let last_index := Z.of_nat (length (composed data)) - 1 in
  let t := exec (loadFrame last_index) stored in
  ∃ fr, last (composed data) = Some fr ∧
        at_index (composed data) last_index = Some fr ∧
        ((result (loadFrame last_index) stored = Ret () ∧
          (is_Some (radarLayers s !! path fr) ∨ inherited (path fr) = false) ∧
          exec (fetchFrames (Response true status (Some data))) s = t) ∨
         (result (loadFrame last_index) stored = Throw TypeError ∧
          radarLayers s !! path fr = None ∧ inherited (path fr) = true ∧
          exec (fetchFrames (Response true status (Some data))) s
          = set_frameTime (Literal "Error loading data") t)).
Proof.
  intros Hne stored last_index t. pose proof (length_pos _ Hne) as Hn.
  assert (Hne' : frames stored ≠ []) by done.
  destruct (loadFrame_cases stored last_index Hne') as (fr & Hfr & Hcases).
  change (frames stored) with (composed data) in Hfr.
  rewrite normalize_in_range in Hfr by (unfold last_index; lia).
  exists fr. split.
  { rewrite <- Hfr. unfold at_index, last_index. case_match; [lia|].
    rewrite last_lookup. f_equal. lia. }
  split; [done|].
  rewrite exec_fetchFrames_data. cbv zeta. rewrite decide_False by done.
  fold stored last_index. unfold t, result, exec.
  change (radarLayers stored) with (radarLayers s) in Hcases.
  destruct Hcases as [(l & Hl & ->) | [(Hl & Hp & ->) |
    [(d & Hl & Hp & Hd & ->) | (Hl & Hp & Hd & ->)]]]; cbn [fst snd].
  - left. split; [done|]. split; [|done]. left. by eexists.
  - right. done.
  - left. split; [done|]. split; [|done]. by right.
  - discriminate Hd.
Qed.

Lemma fetchFrames_text status data s :
  composed data ≠ [] →
  text_inv (exec (fetchFrames (Response true status (Some data))) s).
Proof.
  intros Hne.
  destruct (fetchFrames_loaded status data s Hne) as (fr & _ & Hfr & Hcases).
  pose proof (text_inv_loadFrame
                (set_frames (composed data) (set_apiData (Some data) s))
                (Z.of_nat (length (composed data)) - 1)) as Ht.
  destruct Hcases as [(_ & _ & ->) | (_ & _ & Hp & ->)].
  - apply Ht. intros _. by eexists.
  - intros Hne2. exists fr. split; [|by rewrite Hp].
    fields. rewrite loadFrame_index by done.
    destruct (loadFrame_untouched (set_frames (composed data) (set_apiData (Some data) s))
                (Z.of_nat (length (composed data)) - 1)) as (_ & -> & _).
    fields. pose proof (length_pos _ Hne). by rewrite normalize_in_range by lia.
Qed.

Lemma inv2_loadFrame b s i : inv b s → inv2 b s → inv2 b (exec (loadFrame i) s).
Proof.
  intros (_ & _ & HS & HF) (HC & HT & HB & HP).
  destruct (loadFrame_untouched s i) as (Ed & Ef & Ep & _ & _ & _ & El).
  split_inv.
  - by apply cache_inv_loadFrame.
  - apply text_inv_loadFrame, shown_inv_data, HS.
  - unfold label_inv. by rewrite Ep, El.
  - intros Hb. rewrite exec_loadFrame_empty by auto. auto.
Qed.

Lemma inv2_startAnimation b s : inv2 b s → inv2 b (exec startAnimation s).
Proof.
  intros (HC & HT & HB & HP).
  destruct (startAnimation_untouched s) as (Ed & Ef & Ei & Ec & _ & En & Et).
  split_inv.
  - by apply (cache_inv_ext s).
  - unfold text_inv. by rewrite Ef, Ei, Et.
  - unfold label_inv, exec. rewrite startAnimation_run. destruct (playing s); [done|].
    by fields.
  - unfold pending_inv. by rewrite Ed, Ei.
Qed.

Lemma inv2_stopAnimation b s : inv2 b s → inv2 b (exec stopAnimation s).
Proof.
  intros (HC & HT & HB & HP).
  destruct (stopAnimation_untouched s) as (Ed & Ef & Ei & Ec & _ & En & Et).
  split_inv.
  - by apply (cache_inv_ext s).
  - unfold text_inv. by rewrite Ef, Ei, Et.
  - unfold label_inv, exec. rewrite stopAnimation_run.
    destruct (playing s) eqn:Hp; fields; [done|by rewrite Hp].
  - unfold pending_inv. by rewrite Ed, Ei.
Qed.

Lemma inv2_step b s e : inv b s → inv2 b s → inv2 b (step e s).
Proof.
  intros H H2. destruct e as [| | |id|i].
  - rewrite step_toggle.
    destruct (playing s); [by apply inv2_stopAnimation | by apply inv2_startAnimation].
  - rewrite step_prev. apply inv2_loadFrame; [by apply inv_stopAnimation|].
    by apply inv2_stopAnimation.
  - rewrite step_next. apply inv2_loadFrame; [by apply inv_stopAnimation|].
    by apply inv2_stopAnimation.
  - rewrite step_tick. case_decide; [|done]. rewrite exec_nextFrame.
    by apply inv2_loadFrame.
  - by apply inv2_loadFrame.
Qed.

Lemma inv2_fetchFrames s r : inv false s → inv2 false s → inv2 true (exec (fetchFrames r) s).
Proof.
  intros (_ & _ & _ & HF) (HC & HT & HB & HP).
  specialize (HF eq_refl). destruct (HP eq_refl) as [Hd _].
  assert (Hnone : ∀ k l, radarLayers s !! k = Some l → False).
  { intros k l Hk. destruct (cache_url s HC k l Hk) as (d & Hd' & _). congruence. }
  destruct (fetched_cases r) as [(status & data & ->)|Hr].
  - set (stored := set_frames (composed data) (set_apiData (Some data) s)).
    assert (HC' : cache_inv stored).
    { destruct HC as [Hcount _ _ _ _ _].
      split; try done; intros; exfalso; eapply Hnone; eauto. }
    destruct (decide (composed data = [])) as [Hc|Hc].
    + rewrite exec_fetchFrames_data. cbv zeta. rewrite decide_True by done.
      split_inv; [by apply (cache_inv_ext stored) | | done | done].
      intros Hne. by destruct Hne.
    + split_inv; [| by apply fetchFrames_text | | done].
      * apply (fetchFrames_data_ind cache_inv); [done | |by apply cache_inv_loadFrame].
        intros t ft Ht. by apply (cache_inv_ext t).
      * apply (fetchFrames_data_ind label_inv); [done|done|].
        destruct (loadFrame_untouched stored (Z.of_nat (length (composed data)) - 1))
          as (_ & _ & Ep & _ & _ & _ & El).
        unfold label_inv. fold stored. by rewrite Ep, El.
  - unfold exec. rewrite fetchFrames_failed by done. cbn [fst].
    split_inv; [by apply (cache_inv_ext s) | | done | done].
    intros Hne. by destruct Hne.
Qed.

Lemma reach_inv2 b s : reach b s → inv2 b s.
Proof.
  induction 1 as [ft pp|b s e H IH|s r H IH].
  - split_inv.
    + split; unfold initial; fields; try done; intros k l; by rewrite lookup_empty.
    + intros Hne. by destruct Hne.
    + intros Hp. discriminate Hp.
    + intros _. by split.
  - apply inv2_step; [by apply reach_inv | done].
  - apply inv2_fetchFrames; [by apply reach_inv | done].
Qed.

Lemma size_list_to_set_le (ks : list string) :
  (size (list_to_set ks : gset string) ≤ length ks)%nat.
Proof.
  induction ks as [|k ks IH]; [by rewrite list_to_set_nil, size_empty|].
  rewrite list_to_set_cons, size_union_alt, size_singleton. cbn [length].
  pose proof (subseteq_size (list_to_set ks ∖ {[k]}) (list_to_set ks : gset string)) as Hle.
  assert (Hsub : (list_to_set ks ∖ {[k]} : gset string) ⊆ list_to_set ks).
  { intros x Hx. by apply elem_of_difference in Hx as [? _]. }
  specialize (Hle Hsub). lia.
Qed.

Lemma cache_size_le s : cache_inv s → (size (radarLayers s) ≤ length (frames s))%nat.
Proof.
  intros HC. rewrite <- (size_dom (D := gset string)).
  transitivity (size (list_to_set (path <$> frames s) : gset string)).
  - apply subseteq_size. intros k [l Hk]%elem_of_dom.
    destruct (cache_keys s HC k l Hk) as (fr & Hfr & <-).
    apply elem_of_list_to_set, list_elem_of_fmap. by exists fr.
  - etransitivity; [apply size_list_to_set_le|]. by rewrite length_fmap.
Qed.

(** X5: in every reachable state each layer of the cache carries the tile
    URL of the path it is filed under, built with the host of the stored
    feed; that path is the path of a frame of the collection; and the
    layer is not the base map. *)
Theorem X5_cache_coherent (settled : bool) (s : state) (p : string) (l : layer) :
  reach settled s → radarLayers s !! p = Some l →
  (∃ d, apiData s = Some d ∧ layer_url l = str (host d) +:+ p +:+ urlSuffix) ∧
  (∃ fr, fr ∈ frames s ∧ path fr = p) ∧
  layer_id l ≠ baseLayer.
Proof.
  intros H Hp. destruct (reach_inv2 _ _ H) as (HC & _).
  split; [exact (cache_url s HC p l Hp)|].
  split; [exact (cache_keys s HC p l Hp)|].
  pose proof (cache_below s HC p l Hp). lia.
Qed.

Lemma X5_cache_coherent_witness :
  reach true loaded ∧
  radarLayers loaded !! path frameC = Some (Layer 1 (tilecache +:+ path frameC +:+ urlSuffix)) ∧
  ∃ fr, fr ∈ frames loaded ∧ path fr = path frameC.
Proof.
  assert (H : reach true loaded) by exact (reach_fetch _ _ (reach_initial _ _)).
  assert (Hp : radarLayers loaded !! path frameC
               = Some (Layer 1 (tilecache +:+ path frameC +:+ urlSuffix))) by by vm_compute.
  split; [exact H|]. split; [exact Hp|].
  exact (proj1 (proj2 (X5_cache_coherent true loaded _ _ H Hp))).
Defined.

(** X6: in every reachable state no tile layer is filed under two paths,
    every tile layer ever made is in the cache (the count of layers made
    is the size of the cache), and the cache holds at most as many layers
    as there are frames. *)
Theorem X6_one_layer_per_path (settled : bool) (s : state) :
  reach settled s →
  (∀ p1 p2 l1 l2, radarLayers s !! p1 = Some l1 → radarLayers s !! p2 = Some l2 →
                  layer_id l1 = layer_id l2 → p1 = p2) ∧
  nextLayer s = S (size (radarLayers s)) ∧
  (size (radarLayers s) ≤ length (frames s))%nat.
Proof.
  intros H. destruct (reach_inv2 _ _ H) as (HC & _).
  split; [exact (cache_distinct s HC)|].
  split; [exact (cache_count s HC)|]. by apply cache_size_le.
Qed.

Lemma X6_one_layer_per_path_witness :
  reach true (steps [ClickNextFrame; ClickNextFrame; ClickPrevFrame] loaded) ∧
  (size (radarLayers (steps [ClickNextFrame; ClickNextFrame; ClickPrevFrame] loaded))
   ≤ length (frames (steps [ClickNextFrame; ClickNextFrame; ClickPrevFrame] loaded)))%nat.
Proof.
  assert (H : reach true (steps [ClickNextFrame; ClickNextFrame; ClickPrevFrame] loaded)).
  { apply reach_steps. exact (reach_fetch _ _ (reach_initial _ _)). }
  split; [exact H|].
  exact (proj2 (proj2 (X6_one_layer_per_path true _ H))).
Defined.

(** The current frame and what is on the map for it. *)
Lemma current_frame b s :
  inv b s → inv2 b s → frames s ≠ [] →
  ∃ d fr,
    apiData s = Some d ∧
    at_index (frames s) (currentFrameIndex s) = Some fr ∧
    if inherited (path fr) then
      radarLayers s !! path fr = None ∧ activeOverlays s = ∅
    else
      ∃ l, radarLayers s !! path fr = Some l ∧
           activeOverlays s = {[ layer_id l ]} ∧
           layer_url l = tileUrl d (path fr) ∧
           frameTime s = LocaleString (time fr * 1000).
Proof.
  intros HI (HC & HT & _) Hne.
  destruct (proj2 (inv_overlays b s HI) Hne) as (fr & Hfr & Hm).
  destruct HI as (_ & _ & HS & _).
  destruct (shown_inv_data s HS Hne) as [d Hd].
  destruct (HT Hne) as (fr' & Hfr' & Ht).
  assert (fr' = fr) as -> by congruence.
  exists d, fr. split; [done|]. split; [done|].
  destruct (radarLayers s !! path fr) as [l|] eqn:Hl.
  - rewrite (cache_own s HC _ _ Hl). exists l.
    destruct (cache_url s HC _ _ Hl) as (d' & Hd' & Hu).
    assert (d' = d) as -> by congruence.
    split; [done|]. split; [done|]. split; [done|]. apply Ht, (cache_own s HC _ _ Hl).
  - destruct Hm as [-> Hm]. done.
Qed.

(** X7: in every reachable state with frames, what the page shows belongs
    to one frame, the current one: the single overlay on the map is the
    cached layer of that frame, the layer's URL is the tile URL of that
    frame's path, and the time text is that frame's time.  The one
    exception is a current frame whose path is a name of
    [Object.prototype]: it has no layer in the cache and no overlay is on
    the map. *)
Theorem X7_display_is_current_frame (settled : bool) (s : state) :
  reach settled s → frames s ≠ [] →
  ∃ d fr,
    apiData s = Some d ∧
    at_index (frames s) (currentFrameIndex s) = Some fr ∧
    if inherited (path fr) then
      radarLayers s !! path fr = None ∧ activeOverlays s = ∅
    else
      ∃ l, radarLayers s !! path fr = Some l ∧
           activeOverlays s = {[ layer_id l ]} ∧
           layer_url l = str (host d) +:+ path fr +:+ urlSuffix ∧
           frameTime s = LocaleString (time fr * 1000).
Proof.
  intros H Hne. exact (current_frame settled s (reach_inv _ _ H) (reach_inv2 _ _ H) Hne).
Qed.

Lemma X7_display_is_current_frame_witness :
  reach true (step ClickPrevFrame loaded) ∧ frames (step ClickPrevFrame loaded) ≠ [] ∧
  ∃ d fr,
    apiData (step ClickPrevFrame loaded) = Some d ∧
    at_index (frames (step ClickPrevFrame loaded))
      (currentFrameIndex (step ClickPrevFrame loaded)) = Some fr ∧
    if inherited (path fr) then
      radarLayers (step ClickPrevFrame loaded) !! path fr = None ∧
      activeOverlays (step ClickPrevFrame loaded) = ∅
    else
      ∃ l, radarLayers (step ClickPrevFrame loaded) !! path fr = Some l ∧
           activeOverlays (step ClickPrevFrame loaded) = {[ layer_id l ]} ∧
           layer_url l = str (host d) +:+ path fr +:+ urlSuffix ∧
           frameTime (step ClickPrevFrame loaded) = LocaleString (time fr * 1000).
Proof.
  assert (H : reach true (step ClickPrevFrame loaded)).
  { apply reach_step. exact (reach_fetch _ _ (reach_initial _ _)). }
  assert (Hne : frames (step ClickPrevFrame loaded) ≠ []) by by vm_compute.
  split; [exact H|]. split; [exact Hne|].
  exact (X7_display_is_current_frame true _ H Hne).
Defined.

(** ** No handler throws over regular paths *)

Lemma clean_at_index fs i fr : clean fs → at_index fs i = Some fr → inherited (path fr) = false.
Proof.
  intros Hc Hfr. apply at_index_elem_of in Hfr.
  unfold clean in Hc. rewrite Forall_forall in Hc. by apply Hc.
Qed.

Lemma loadFrame_returns s i :
  (frames s ≠ [] → is_Some (apiData s)) → clean (frames s) →
  loadFrame i s = (exec (loadFrame i) s, Ret ()).
Proof.
  intros Hd Hc. destruct (decide (frames s = [])) as [He|Hne].
  - by rewrite exec_loadFrame_empty, loadFrame_empty.
  - destruct (Hd Hne) as [d Hdata]. unfold exec.
    destruct (loadFrame_cases s i Hne) as (fr & Hfr & [(l & Hl & ->) | [(Hl & Hp & _) |
      [(d' & Hl & Hp & Hd' & ->) | (Hl & Hp & Hd' & _)]]]); try done.
    + by rewrite (clean_at_index _ _ _ Hc Hfr) in Hp.
    + congruence.
Qed.

Lemma startAnimation_returns s : startAnimation s = (exec startAnimation s, Ret ()).
Proof. unfold exec. rewrite startAnimation_run. by destruct (playing s). Qed.

Lemma fetchFrames_returns s r : fetchFrames r s = (exec (fetchFrames r) s, Ret ()).
Proof.
  destruct (fetched_cases r) as [(status & data & ->)|Hr].
  - unfold fetchFrames, onResponse, exec, catch, onError. cbn.
    unfold mbind, M_bind, mret, M_ret, write.
    rewrite onData_run. cbv zeta. case_decide; [done|].
    by destruct (loadFrame _ _) as [t [[]|e]].
  - unfold exec. by rewrite fetchFrames_failed.
Qed.

(** X8: in every reachable state whose frames all have regular paths
    (none a name of [Object.prototype]) each handler (play/pause,
    previous, next, a timer tick, a direct [loadFrame]) runs to its end
    without throwing; and the fetch chain, ending in its [catch], never
    lets an exception out, in any state and however the fetch settles. *)
Theorem X8_no_handler_throws (settled : bool) (s : state) (e : event) (r : fetched) :
  reach settled s → clean (frames s) →
  result (handler e) s = Ret () ∧
  (∀ s0, result (fetchFrames r) s0 = Ret ()).
Proof.
  intros H Hc. split; [|intros s0; unfold result; by rewrite fetchFrames_returns].
  destruct (reach_inv _ _ H) as (_ & _ & HS & _).
  pose proof (inv_stopAnimation _ _ (reach_inv _ _ H)) as (_ & _ & HS' & _).
  assert (Hc' : clean (frames (exec stopAnimation s))).
  { by destruct (stopAnimation_untouched s) as (_ & -> & _). }
  unfold result. destruct e as [| | |id|i]; unfold handler.
  - run. destruct (playing s);
      [by rewrite stopAnimation_returns | by rewrite startAnimation_returns].
  - rewrite (exec_bind _ _ _ _ _ (stopAnimation_returns s)).
    unfold prevFrame. run.
    by rewrite loadFrame_returns by (done || apply shown_inv_data, HS').
  - rewrite (exec_bind _ _ _ _ _ (stopAnimation_returns s)).
    unfold nextFrame. run.
    by rewrite loadFrame_returns by (done || apply shown_inv_data, HS').
  - run. case_decide; [|done].
    unfold nextFrame. run. by rewrite loadFrame_returns by (done || apply shown_inv_data, HS).
  - by rewrite loadFrame_returns by (done || apply shown_inv_data, HS).
Qed.

Lemma X8_no_handler_throws_witness :
  reach true animated ∧ clean (frames animated) ∧
  result (handler (Tick 1)) animated = Ret ().
Proof.
  assert (H : reach true animated).
  { apply reach_step. exact (reach_fetch _ _ (reach_initial _ _)). }
  assert (Hc : clean (frames animated)).
  { apply (bool_decide_unpack _). by vm_compute. }
  split; [exact H|]. split; [exact Hc|].
  exact (proj1 (X8_no_handler_throws true animated (Tick 1) Rejected H Hc)).
Defined.

(** ** Play, pause and the timer *)

Lemma step_toggle_playing s : playing (step ClickPlayPause s) = negb (playing s).
Proof.
  rewrite step_toggle. unfold exec. rewrite stopAnimation_run, startAnimation_run.
  by destruct (playing s).
Qed.

Lemma step_toggle_label s :
  playPause (step ClickPlayPause s) = Literal (if playing s then "Play" else "Stop").
Proof.
  rewrite step_toggle. unfold exec. rewrite stopAnimation_run, startAnimation_run.
  by destruct (playing s).
Qed.

Lemma inv_intervals_size b s :
  inv b s → size (intervals s) = (if playing s then 1 else 0)%nat.
Proof.
  intros (HT & _). unfold timer_inv in HT. destruct (playing s).
  - destruct HT as (id & _ & ->). apply size_singleton.
  - rewrite HT. apply size_empty.
Qed.

(** X9: in every reachable state a click on play/pause flips [playing],
    sets the button text to "Stop" when the animation starts and to "Play"
    when it stops, leaves one interval active when it starts and none
    when it stops, and shows no other frame; a second click brings
    [playing] and the number of active intervals back. *)
Theorem X9_play_pause_toggles (settled : bool) (s : state) :
  reach settled s →
  let s1 := step ClickPlayPause s in
  let s2 := step ClickPlayPause s1 in
  playing s1 = negb (playing s) ∧
  playPause s1 = Literal (if playing s then "Play" else "Stop") ∧
  size (intervals s1) = (if playing s then 0 else 1)%nat ∧
  currentFrameIndex s1 = currentFrameIndex s ∧ mapLayers s1 = mapLayers s ∧
  frameTime s1 = frameTime s ∧
  playing s2 = playing s ∧ size (intervals s2) = size (intervals s).
Proof.
  intros H s1 s2.
  assert (H1 : reach settled s1) by by apply reach_step.
  assert (H2 : reach settled s2) by by apply reach_step.
  pose proof (inv_intervals_size _ _ (reach_inv _ _ H)) as N0.
  pose proof (inv_intervals_size _ _ (reach_inv _ _ H1)) as N1.
  pose proof (inv_intervals_size _ _ (reach_inv _ _ H2)) as N2.
  assert (P1 : playing s1 = negb (playing s)) by apply step_toggle_playing.
  assert (P2 : playing s2 = playing s).
  { unfold s2. rewrite step_toggle_playing, P1. apply negb_involutive. }
  rewrite N2, N1, N0, P2, P1.
  split; [done|]. split; [apply step_toggle_label|].
  split; [by destruct (playing s)|].
  destruct (stopAnimation_untouched s) as (_ & _ & Si & _ & Sm & _ & St).
  destruct (startAnimation_untouched s) as (_ & _ & Ti & _ & Tm & _ & Tt).
  unfold s1. rewrite step_toggle. by destruct (playing s).
Qed.

Lemma X9_play_pause_toggles_witness :
  reach true loaded ∧
  playing (step ClickPlayPause loaded) = negb (playing loaded) ∧
  playPause (step ClickPlayPause loaded) = Literal "Stop".
Proof.
  assert (H : reach true loaded) by exact (reach_fetch _ _ (reach_initial _ _)).
  split; [exact H|].
  destruct (X9_play_pause_toggles true loaded H) as (Hp & Hl & _).
  split; [exact Hp | exact Hl].
Defined.

(** X10: in every reachable state the button reads "Stop" while the
    animation is playing; a click on previous or next that interrupts a
    playing animation sets it to "Play", and one that finds the animation
    stopped leaves the button text alone. *)
Theorem X10_button_text_follows_playing (settled : bool) (s : state) :
  reach settled s →
  (playing s = true → playPause s = Literal "Stop") ∧
  playPause (step ClickPrevFrame s) = (if playing s then Literal "Play" else playPause s) ∧
  playPause (step ClickNextFrame s) = (if playing s then Literal "Play" else playPause s).
Proof.
  intros H. destruct (reach_inv2 _ _ H) as (_ & _ & HB & _).
  split; [exact HB|].
  rewrite step_prev, step_next.
  destruct (loadFrame_untouched (exec stopAnimation s)
              (currentFrameIndex (exec stopAnimation s) - 1)) as (_ & _ & _ & _ & _ & _ & ->).
  destruct (loadFrame_untouched (exec stopAnimation s)
              (currentFrameIndex (exec stopAnimation s) + 1)) as (_ & _ & _ & _ & _ & _ & ->).
  unfold exec. rewrite stopAnimation_run. by destruct (playing s).
Qed.

Lemma X10_button_text_follows_playing_witness :
  reach true animated ∧ playing animated = true ∧ playPause animated = Literal "Stop" ∧
  playPause (step ClickNextFrame animated) = Literal "Play".
Proof.
  assert (H : reach true animated).
  { apply reach_step. exact (reach_fetch _ _ (reach_initial _ _)). }
  assert (Hp : playing animated = true) by by vm_compute.
  destruct (X10_button_text_follows_playing true animated H) as (Hl & _ & Hn).
  split; [exact H|]. split; [exact Hp|]. split; [exact (Hl Hp)|].
  rewrite Hn, Hp. reflexivity.
Defined.

Lemma intervals_after_stop s :
  timer_inv s →
  intervals (exec stopAnimation s) = ∅ ∧
  intervals (step ClickPrevFrame s) = ∅ ∧
  intervals (step ClickNextFrame s) = ∅.
Proof.
  intros HT. destruct (stopAnimation_stops s HT) as [_ Hi].
  rewrite step_prev, step_next.
  destruct (loadFrame_untouched (exec stopAnimation s)
              (currentFrameIndex (exec stopAnimation s) - 1)) as (_ & _ & _ & _ & -> & _).
  destruct (loadFrame_untouched (exec stopAnimation s)
              (currentFrameIndex (exec stopAnimation s) + 1)) as (_ & _ & _ & _ & -> & _).
  done.
Qed.

(** X11: in every reachable state with the animation stopped no timer
    tick, whatever interval id it carries, changes the page; so after
    [stopAnimation], and after a click on previous or next, a late tick
    of the cancelled interval moves nothing. *)
Theorem X11_no_tick_after_stop (settled : bool) (s : state) (id : nat) :
  reach settled s →
  (playing s = false → step (Tick id) s = s) ∧
  step (Tick id) (exec stopAnimation s) = exec stopAnimation s ∧
  step (Tick id) (step ClickPrevFrame s) = step ClickPrevFrame s ∧
  step (Tick id) (step ClickNextFrame s) = step ClickNextFrame s.
Proof.
  intros H.
  assert (Hstop : ∀ b t, reach b t → intervals t = ∅ → step (Tick id) t = t).
  { intros b t _ Ht. rewrite step_tick, Ht. by rewrite decide_False by apply not_elem_of_empty. }
  pose proof (reach_inv _ _ H) as HI. pose proof HI as (HT & _).
  destruct (intervals_after_stop s HT) as (Hs & Hp & Hn).
  split; [|split; [|split]].
  - intros Hp0. apply (Hstop settled s H). unfold timer_inv in HT. by rewrite Hp0 in HT.
  - rewrite step_tick, Hs. by rewrite decide_False by apply not_elem_of_empty.
  - apply (Hstop settled); [by apply reach_step | done].
  - apply (Hstop settled); [by apply reach_step | done].
Qed.

Lemma X11_no_tick_after_stop_witness :
  reach true animated ∧
  step (Tick 1) (exec stopAnimation animated) = exec stopAnimation animated.
Proof.
  assert (H : reach true animated).
  { apply reach_step. exact (reach_fetch _ _ (reach_initial _ _)). }
  split; [exact H|].
  exact (proj1 (proj2 (X11_no_tick_after_stop true animated 1 H))).
Defined.

(** ** Stepping through the frames *)

Lemma normalize_succ i n : 0 ≤ i < n → normalize (i + 1) n = (i + 1) mod n.
Proof.
  intros Hi. unfold normalize. repeat case_match; try lia.
  - assert (i + 1 = n) as -> by lia. by rewrite Z_mod_same_full.
  - by rewrite Z.mod_small by lia.
Qed.

Lemma normalize_pred i n : 0 ≤ i < n → normalize (i - 1) n = (i - 1) mod n.
Proof.
  intros Hi. unfold normalize. repeat case_match; try lia.
  - assert (i = 0) as -> by lia.
    replace (0 - 1) with (-1 * n + (n - 1)) by lia.
    rewrite Z.add_comm, Z_mod_plus_full. by rewrite Z.mod_small by lia.
  - by rewrite Z.mod_small by lia.
Qed.

Lemma inv_index_range b s :
  inv b s → frames s ≠ [] → 0 ≤ currentFrameIndex s < Z.of_nat (length (frames s)).
Proof.
  intros (_ & _ & HS & _) Hne. unfold shown_inv in HS.
  rewrite decide_False in HS by done. apply HS.
Qed.

Lemma advance_frames k s : frames (advance k s) = frames s.
Proof.
  induction k as [|k IH]; [done|].
  change (advance (S k) s) with (exec nextFrame (advance k s)).
  rewrite exec_nextFrame.
  by destruct (loadFrame_untouched (advance k s) (currentFrameIndex (advance k s) + 1))
    as (_ & -> & _).
Qed.

Lemma advance_index b s k :
  reach b s → frames s ≠ [] →
  currentFrameIndex (advance k s)
  = (currentFrameIndex s + Z.of_nat k) mod Z.of_nat (length (frames s)).
Proof.
  intros H Hne. pose proof (length_pos _ Hne) as Hn.
  induction k as [|k IH].
  - change (advance 0 s) with s. rewrite Z.add_0_r.
    rewrite Z.mod_small; [done|]. by apply (inv_index_range b), Hne; apply reach_inv.
  - change (advance (S k) s) with (exec nextFrame (advance k s)).
    rewrite exec_nextFrame, loadFrame_index by by rewrite advance_frames.
    rewrite advance_frames.
    pose proof (inv_index_range b (advance k s) (reach_inv _ _ (reach_advance b s k H))) as Hr.
    rewrite advance_frames in Hr. rewrite normalize_succ by auto.
    rewrite IH, Z.add_mod_idemp_l by lia. f_equal. lia.
Qed.

(** X12: a tick of the running animation's interval moves the current
    index one position on, with wrap-around, and leaves the animation
    running: [playing], the active interval and the button text are as
    before.  At most one overlay is on the map afterwards, and exactly one
    unless the frame landed on has a path that is a name of
    [Object.prototype]. *)
Theorem X12_tick_advances (settled : bool) (s : state) (id : nat) :
  reach settled s → frames s ≠ [] → id ∈ intervals s →
  let s' := step (Tick id) s in
  playing s = true ∧ timer s = Some id ∧
  cyclic_succ (Z.of_nat (length (frames s))) (currentFrameIndex s) (currentFrameIndex s') ∧
  playing s' = true ∧ intervals s' = intervals s ∧ timer s' = timer s ∧
  playPause s' = playPause s ∧
  (size (activeOverlays s') ≤ 1)%nat ∧
  (∀ fr, at_index (frames s) (currentFrameIndex s') = Some fr →
         inherited (path fr) = false → size (activeOverlays s') = 1%nat).
Proof.
  intros H Hne Hid s'.
  pose proof (reach_inv _ _ H) as HI. pose proof HI as (HT & _).
  assert (Hp : playing s = true ∧ timer s = Some id).
  { unfold timer_inv in HT. destruct (playing s).
    - destruct HT as (id' & Ht & Hi). rewrite Hi in Hid.
      apply elem_of_singleton in Hid as ->. done.
    - rewrite HT in Hid. by apply not_elem_of_empty in Hid. }
  destruct Hp as [Hp Ht].
  assert (H' : reach settled s') by by apply reach_step.
  assert (Es : s' = exec (loadFrame (currentFrameIndex s + 1)) s).
  { unfold s'. rewrite step_tick. by rewrite decide_True by done. }
  destruct (loadFrame_untouched s (currentFrameIndex s + 1)) as (_ & Ef & Ep & Et & Ei & _ & El).
  rewrite <- Es in Ef, Ep, Et, Ei, El.
  pose proof (inv_index_range _ _ HI Hne) as Hr.
  split; [done|]. split; [done|]. split.
  { rewrite Es, loadFrame_index by done.
    unfold cyclic_succ, normalize. repeat case_match; lia. }
  rewrite Ep, Ei, Et, El. do 4 (split; [done|]).
  assert (Hne' : frames s' ≠ []) by by rewrite Ef.
  destruct (proj2 (inv_overlays settled s' (reach_inv _ _ H')) Hne') as (fr & Hfr & Hm).
  rewrite Ef in Hfr. split.
  - destruct (radarLayers s' !! path fr); [by rewrite Hm, size_singleton|].
    destruct Hm as [_ ->]. rewrite size_empty. lia.
  - intros fr' Hfr' Hp'. assert (fr' = fr) as -> by congruence.
    destruct (radarLayers s' !! path fr); [by rewrite Hm, size_singleton|].
    destruct Hm as [Hm _]. congruence.
Qed.

Lemma X12_tick_advances_witness :
  reach true animated ∧ frames animated ≠ [] ∧ (1%nat ∈ intervals animated) ∧
  cyclic_succ 3 2 (currentFrameIndex (step (Tick 1) animated)) ∧
  playing (step (Tick 1) animated) = true.
Proof.
  assert (H : reach true animated).
  { apply reach_step. exact (reach_fetch _ _ (reach_initial _ _)). }
  assert (Hne : frames animated ≠ []) by by vm_compute.
  assert (Hid : 1%nat ∈ intervals animated).
  { apply (bool_decide_unpack _). by vm_compute. }
  split; [exact H|]. split; [exact Hne|]. split; [exact Hid|].
  destruct (X12_tick_advances true animated 1 H Hne Hid) as (_ & _ & Hs & Hp & _).
  split; [exact Hs | exact Hp].
Defined.

(** X13: [k] calls of [nextFrame] in a row, as the animation makes, put
    the current index at (index + k) mod n, n the number of frames; after
    n of them the page is back on the frame it started from. *)
Theorem X13_animation_is_periodic (settled : bool) (s : state) (k : nat) :
  reach settled s → frames s ≠ [] →
  let n := Z.of_nat (length (frames s)) in
  currentFrameIndex (advance k s) = (currentFrameIndex s + Z.of_nat k) mod n ∧
  currentFrameIndex (advance (length (frames s)) s) = currentFrameIndex s ∧
  currentFrameIndex (advance (k + length (frames s)) s) = currentFrameIndex (advance k s).
Proof.
  intros H Hne n. pose proof (length_pos _ Hne) as Hn. fold n in Hn.
  pose proof (inv_index_range _ _ (reach_inv _ _ H) Hne) as Hr. fold n in Hr.
  rewrite !(advance_index settled) by done. fold n.
  split; [done|]. split.
  - rewrite <- (Z.mul_1_l n) at 1. rewrite Z_mod_plus_full. by apply Z.mod_small.
  - rewrite Nat2Z.inj_add. fold n. rewrite Z.add_assoc.
    rewrite <- (Z.mul_1_l n) at 1. by rewrite Z_mod_plus_full.
Qed.

Lemma X13_animation_is_periodic_witness :
  reach true loaded ∧ frames loaded ≠ [] ∧
  currentFrameIndex (advance 3 loaded) = currentFrameIndex loaded.
Proof.
  assert (H : reach true loaded) by exact (reach_fetch _ _ (reach_initial _ _)).
  assert (Hne : frames loaded ≠ []) by by vm_compute.
  split; [exact H|]. split; [exact Hne|].
  exact (proj1 (proj2 (X13_animation_is_periodic true loaded 0 H Hne))).
Defined.

Lemma normalize_succ_pred i n : 0 ≤ i < n → normalize (normalize (i + 1) n - 1) n = i.
Proof. intros Hi. unfold normalize. repeat case_match; lia. Qed.

Lemma normalize_pred_succ i n : 0 ≤ i < n → normalize (normalize (i - 1) n + 1) n = i.
Proof. intros Hi. unfold normalize. repeat case_match; lia. Qed.

(** Two reachable pages with the same frames and the same index, the
    cache of the first within that of the second, show the same layers;
    and the same time text when the current frame's path is regular. *)
Lemma same_frame_same_display b s s' :
  inv b s → inv2 b s → inv b s' → inv2 b s' →
  frames s ≠ [] → frames s' = frames s →
  currentFrameIndex s' = currentFrameIndex s →
  radarLayers s ⊆ radarLayers s' →
  mapLayers s' = mapLayers s ∧
  (∀ fr, at_index (frames s) (currentFrameIndex s) = Some fr →
         inherited (path fr) = false → frameTime s' = frameTime s).
Proof.
  intros (_ & _ & HS & _) (_ & HT & _) (_ & _ & HS' & _) (HC' & HT' & _) Hne Ef Ei Hsub.
  assert (Hne' : frames s' ≠ []) by by rewrite Ef.
  unfold shown_inv in HS, HS'.
  rewrite decide_False in HS by done. rewrite decide_False in HS' by done.
  destruct HS as (_ & _ & fr & Hfr & Hm).
  destruct HS' as (_ & _ & fr' & Hfr' & Hm').
  destruct (HT Hne) as (fr1 & Hfr1 & Ht). destruct (HT' Hne') as (fr2 & Hfr2 & Ht').
  rewrite Ef, Ei in Hfr', Hfr2.
  assert (fr' = fr) as -> by congruence.
  assert (fr1 = fr) as -> by congruence.
  assert (fr2 = fr) as -> by congruence.
  split.
  - destruct (radarLayers s !! path fr) as [l|] eqn:Hl.
    + by rewrite (lookup_weaken _ _ _ _ Hl Hsub) in Hm'; rewrite Hm, Hm'.
    + destruct Hm as [Hp ->].
      destruct (radarLayers s' !! path fr) as [l'|] eqn:Hl'; [|by destruct Hm'].
      pose proof (cache_own s' HC' _ _ Hl'). congruence.
  - intros fr0 Hfr0 Hp. assert (fr0 = fr) as -> by congruence.
    by rewrite Ht, Ht'.
Qed.

(** X14: in every reachable state with frames, stepping one frame on and
    then one frame back, or one back and then one on, brings back the
    same index and the same layers on the map; and the same time text,
    when the current frame's path is not a name of [Object.prototype]
    (for such a frame [loadFrame] throws before it writes the text). *)
Theorem X14_next_prev_round_trip (settled : bool) (s : state) :
  reach settled s → frames s ≠ [] →
  let back := exec prevFrame (exec nextFrame s) in
  let forth := exec nextFrame (exec prevFrame s) in
  currentFrameIndex back = currentFrameIndex s ∧ mapLayers back = mapLayers s ∧
  currentFrameIndex forth = currentFrameIndex s ∧ mapLayers forth = mapLayers s ∧
  (∀ fr, at_index (frames s) (currentFrameIndex s) = Some fr →
         inherited (path fr) = false →
         frameTime back = frameTime s ∧ frameTime forth = frameTime s).
Proof.
  intros H Hne back forth.
  pose proof (length_pos _ Hne) as Hn.
  pose proof (inv_index_range _ _ (reach_inv _ _ H) Hne) as Hr.
  assert (Hround : ∀ i j,
    normalize (normalize i (Z.of_nat (length (frames s))) + j) (Z.of_nat (length (frames s)))
      = currentFrameIndex s →
    let t := exec (loadFrame (currentFrameIndex (exec (loadFrame i) s) + j))
               (exec (loadFrame i) s) in
    currentFrameIndex t = currentFrameIndex s ∧ mapLayers t = mapLayers s ∧
    (∀ fr, at_index (frames s) (currentFrameIndex s) = Some fr →
           inherited (path fr) = false → frameTime t = frameTime s)).
  { intros i j Hij t.
    set (s1 := exec (loadFrame i) s) in *.
    assert (H1 : reach settled s1) by exact (reach_step _ _ (CallLoadFrame i) H).
    assert (H2 : reach settled t).
    { exact (reach_step _ _ (CallLoadFrame (currentFrameIndex s1 + j)) H1). }
    destruct (loadFrame_untouched s i) as (_ & Ef1 & _). fold s1 in Ef1.
    destruct (loadFrame_untouched s1 (currentFrameIndex s1 + j)) as (_ & Ef2 & _).
    fold t in Ef2.
    assert (Ei : currentFrameIndex t = currentFrameIndex s).
    { unfold t. rewrite loadFrame_index by by rewrite Ef1.
      unfold s1 at 1. rewrite loadFrame_index by done. by rewrite Ef1. }
    split; [done|].
    apply (same_frame_same_display settled s t); try done;
      try (by apply reach_inv); try (by apply reach_inv2); [by rewrite Ef2|].
    transitivity (radarLayers s1); apply loadFrame_cache_grows. }
  unfold back, forth. rewrite !exec_prevFrame, !exec_nextFrame.
  destruct (Hround (currentFrameIndex s + 1) (-1)) as (B1 & B2 & B3).
  { by apply normalize_succ_pred. }
  destruct (Hround (currentFrameIndex s - 1) 1) as (F1 & F2 & F3).
  { by apply normalize_pred_succ. }
  do 4 (split; [done|]). intros fr Hfr Hp. split; [by apply (B3 fr) | by apply (F3 fr)].
Qed.

Lemma X14_next_prev_round_trip_witness :
  reach true loaded ∧ frames loaded ≠ [] ∧
  currentFrameIndex (exec prevFrame (exec nextFrame loaded)) = currentFrameIndex loaded ∧
  mapLayers (exec prevFrame (exec nextFrame loaded)) = mapLayers loaded.
Proof.
  assert (H : reach true loaded) by exact (reach_fetch _ _ (reach_initial _ _)).
  assert (Hne : frames loaded ≠ []) by by vm_compute.
  split; [exact H|]. split; [exact Hne|].
  destruct (X14_next_prev_round_trip true loaded H Hne) as (Hi & Hm & _).
  split; [exact Hi | exact Hm].
Defined.

(** ** Tile URLs tell frames apart *)

Lemma append_cancel_l (a x y : string) : a .+. x = a .+. y → x = y.
Proof.
  induction a as [|ch a IH]; [done|].
  change (String ch (a .+. x) = String ch (a .+. y) → x = y).
  intros [= E]. by apply IH.
Qed.

Lemma length_append (a b : string) :
  String.length (a .+. b) = (String.length a + String.length b)%nat.
Proof.
  induction a as [|ch a IH]; [done|].
  change (S (String.length (a .+. b)) = S (String.length a + String.length b)).
  by rewrite IH.
Qed.

Lemma append_cancel_r (x y c : string) : x .+. c = y .+. c → x = y.
Proof.
  revert y. induction x as [|ch x IH]; intros [|ch' y] E.
  - done.
  - apply (f_equal String.length) in E. rewrite !length_append in E.
    cbn [String.length] in E. lia.
  - apply (f_equal String.length) in E. rewrite !length_append in E.
    cbn [String.length] in E. lia.
  - change (String ch (x .+. c) = String ch' (y .+. c)) in E.
    injection E as -> E. f_equal. by apply IH.
Qed.

(** X15: under one stored feed the tile URL of a frame determines the
    frame's path: [buildTileUrl] returns the same template for two frames
    exactly when the two have the same path. *)
Theorem X15_tile_url_determines_path (s : state) (d : feed) (fr1 fr2 : frame) :
  let page := set_apiData (Some d) s in
  result (buildTileUrl fr1) page = result (buildTileUrl fr2) page ↔ path fr1 = path fr2.
Proof.
  intros page. unfold result.
  rewrite !(buildTileUrl_run page d) by done. cbn [snd]. split.
  - intros [= E]. by apply append_cancel_l, append_cancel_r in E.
  - by intros ->.
Qed.

(** ** The frame a load shows *)

(** X16: a feed with past frames and no nowcast frames (the list absent
    or empty) makes the loader go to the most recent past frame: the
    collection is the past list, the current frame is its last element
    and the time text is that frame's time.  When that frame's path is a
    name of [Object.prototype] with no layer of its own, [loadFrame]
    throws instead and the text is "Error loading data". *)
Theorem X16_no_nowcast_shows_last_past
    (s : state) (status : Z) (h : option string) (p : list frame) (now : option (list frame)) :
  p ≠ [] → now = None ∨ now = Some [] →
  let s' := exec (fetchFrames (Response true status
                                 (Some (Feed h (Some (Radar (Some p) now)))))) s in
  frames s' = p ∧
  currentFrameIndex s' = Z.of_nat (length p) - 1 ∧
  at_index (frames s') (currentFrameIndex s') = last p ∧
  ∃ fr, last p = Some fr ∧
        frameTime s' = match getProperty (radarLayers s) (path fr) with
                       | Some Inherited => Literal "Error loading data"
                       | _ => LocaleString (time fr * 1000)
                       end.
Proof.
  intros Hp Hnow. cbv zeta.
  set (data := Feed h (Some (Radar (Some p) now))).
  assert (Ec : composed data = p).
  { unfold composed, data. cbn. destruct Hnow as [-> | ->]; apply app_nil_r. }
  assert (Hne : composed data ≠ []) by by rewrite Ec.
  pose proof (length_pos _ Hne) as Hn.
  destruct (fetchFrames_shows_last status data s Hne) as [Hi Hl]. rewrite Ec in Hi, Hl.
  pose proof (fetchFrames_frames status data s) as Hf. rewrite Ec in Hf.
  split; [done|]. split; [done|]. split; [done|].
  destruct (fetchFrames_loaded status data s Hne) as (fr & Hlast & Hfr & Hcases).
  exists fr. split; [by rewrite <- Ec|]. unfold getProperty.
  destruct Hcases as [(_ & Hok & ->) | (_ & Hc & Hin & ->)].
  - set (stored := set_frames (composed data) (set_apiData (Some data) s)).
    destruct (loadFrame_spec stored (Z.of_nat (length (composed data)) - 1) data fr)
      as (l & _ & _ & -> & _); try done.
    { change (frames stored) with (composed data). by rewrite normalize_in_range by lia. }
    destruct Hok as [[l0 ->] | Hin]; [done|].
    destruct (radarLayers s !! path fr); [done|]. by rewrite Hin.
  - by rewrite Hc, Hin.
Qed.

Lemma X16_no_nowcast_shows_last_past_witness :
  [frameA; frameB] ≠ [] ∧ (@None (list frame) = None ∨ @None (list frame) = Some []) ∧
  at_index
    (frames (exec (fetchFrames (Response true 200
       (Some (Feed (Some tilecache) (Some (Radar (Some [frameA; frameB]) None)))))) blank))
    (currentFrameIndex (exec (fetchFrames (Response true 200
       (Some (Feed (Some tilecache) (Some (Radar (Some [frameA; frameB]) None)))))) blank))
  = Some frameB.
Proof.
  assert (Hp : [frameA; frameB] ≠ []) by done.
  assert (Hn : @None (list frame) = None ∨ @None (list frame) = Some []) by by left.
  split; [exact Hp|]. split; [exact Hn|].
  exact (proj1 (proj2 (proj2
    (X16_no_nowcast_shows_last_past blank 200 (Some tilecache) [frameA; frameB] None Hp Hn)))).
Defined.

(** ** One [loadFrame], in any state with a feed and frames *)

(** X17: with a feed stored and frames in place, what one [loadFrame]
    does is decided by the lookup of line 91, in whatever state the map
    and the cache are.  A frame whose path is cached is shown with its
    cached layer and no layer is made; a frame with a new path gets one
    layer, with the tile URL of the path, filed under the path; in both
    cases [loadFrame] returns, the frame's layer is on the map and no
    other layer of the cache is.  A frame whose path is only a name of
    [Object.prototype] gets no layer: [loadFrame] throws, the cache and
    the time text stay, and no layer of the cache is left on the map.
    In every case layers that are not in the cache are on the map
    exactly if they were before. *)
Theorem X17_loadFrame_shows_one_cached_layer (s : state) (i : Z) (d : feed) :
  frames s ≠ [] → apiData s = Some d →
  let s' := exec (loadFrame i) s in
  ∃ fr,
    at_index (frames s) (normalize i (Z.of_nat (length (frames s)))) = Some fr ∧
    match getProperty (radarLayers s) (path fr) with
    | Some Inherited =>
        result (loadFrame i) s = Throw TypeError ∧
        radarLayers s' = radarLayers s ∧ nextLayer s' = nextLayer s ∧
        frameTime s' = frameTime s ∧
        (∀ p l', radarLayers s' !! p = Some l' → layer_id l' ∉ mapLayers s')
    | found =>
        ∃ l, result (loadFrame i) s = Ret () ∧
             radarLayers s' !! path fr = Some l ∧
             match found with
             | Some _ => radarLayers s !! path fr = Some l ∧
                         radarLayers s' = radarLayers s ∧ nextLayer s' = nextLayer s
             | None => l = Layer (nextLayer s) (str (host d) +:+ path fr +:+ urlSuffix) ∧
                       radarLayers s' = <[path fr := l]> (radarLayers s) ∧
                       nextLayer s' = S (nextLayer s)
             end ∧
             layer_id l ∈ mapLayers s' ∧
             (∀ p l', radarLayers s' !! p = Some l' → layer_id l' ∈ mapLayers s' →
                      layer_id l' = layer_id l)
    end ∧
    (∀ x, (∀ p l', radarLayers s' !! p = Some l' → layer_id l' ≠ x) →
          (x ∈ mapLayers s' ↔ x ∈ mapLayers s)).
Proof.
  intros Hne Hd s'.
  destruct (at_index_normalize (frames s) i Hne) as [fr Hfr].
  exists fr. split; [done|].
  assert (Hthrough : is_Some (radarLayers s !! path fr) ∨ inherited (path fr) = false →
    ∃ l, result (loadFrame i) s = Ret () ∧
         radarLayers s' !! path fr = Some l ∧
         ((radarLayers s !! path fr = Some l ∧
           radarLayers s' = radarLayers s ∧ nextLayer s' = nextLayer s) ∨
          (radarLayers s !! path fr = None ∧
           l = Layer (nextLayer s) (tileUrl d (path fr)) ∧
           radarLayers s' = <[path fr := l]> (radarLayers s) ∧
           nextLayer s' = S (nextLayer s))) ∧
         layer_id l ∈ mapLayers s' ∧
         (∀ p l', radarLayers s' !! p = Some l' → layer_id l' ∈ mapLayers s' →
                  layer_id l' = layer_id l) ∧
         (∀ x, (∀ p l', radarLayers s' !! p = Some l' → layer_id l' ≠ x) →
               (x ∈ mapLayers s' ↔ x ∈ mapLayers s))).
  { intros Hok.
    destruct (loadFrame_spec s i d fr Hne Hd Hfr Hok) as (l & Hrun & _ & _ & Hl & Hm & Hcase).
    fold s' in Hrun, Hl, Hm, Hcase.
    exists l. split; [unfold result; by rewrite Hrun|]. split; [done|]. split; [done|].
    rewrite Hm. split; [by apply elem_of_union_l, elem_of_singleton|]. split.
    - intros p l' Hp [Hx%elem_of_singleton | Hx%elem_of_cleared]%elem_of_union; [done|].
      destruct Hx as [_ Hx]. by destruct (Hx p l' Hp).
    - intros x Hx. rewrite elem_of_union, elem_of_cleared, elem_of_singleton. split.
      + intros [-> | [? _]]; [by destruct (Hx _ _ Hl) | done].
      + intros Hin. right. split; [done|]. intros p l' Hp. by apply (Hx p). }
  unfold getProperty.
  destruct (radarLayers s !! path fr) as [l0|] eqn:Hl0.
  - destruct Hthrough as (l & Hr & Hl & [(E & Hc & Hn)|(E & _)] & Hin & Hone & Hrest);
      [left; by eexists | | discriminate E].
    split; [|done]. exists l. do 3 (split; [done|]). by split.
  - destruct (inherited (path fr)) eqn:Hp.
    + destruct (loadFrame_spec_inherited s i fr Hne Hfr Hl0 Hp)
        as (Hrun & _ & Ht & Hc & Hn & Hm).
      fold s' in Hrun, Ht, Hc, Hn, Hm.
      split; [split; [unfold result; by rewrite Hrun|]|].
      * do 3 (split; [done|]). intros p l' Hp' Hin. rewrite Hm in Hin.
        apply elem_of_cleared in Hin as [_ Hin]. rewrite Hc in Hp'. by apply (Hin p l').
      * intros x Hx. rewrite Hm, elem_of_cleared, <- Hc. split; [by intros [? _]|].
        intros Hin. split; [done|]. intros p l' Hp'. by apply (Hx p).
    + destruct Hthrough as (l & Hr & Hl & [(E & _)|(_ & El & Hc & Hn)] & Hin & Hone & Hrest);
        [by right | congruence |].
      split; [|done]. exists l. do 3 (split; [done|]). by split.
Qed.

Lemma X17_loadFrame_shows_one_cached_layer_witness :
  frames loaded ≠ [] ∧ apiData loaded = Some sampleFeed ∧
  ∃ fr, at_index (frames loaded) (normalize 0 (Z.of_nat (length (frames loaded)))) = Some fr.
Proof.
  assert (Hne : frames loaded ≠ []) by by vm_compute.
  assert (Hd : apiData loaded = Some sampleFeed) by by vm_compute.
  split; [exact Hne|]. split; [exact Hd|].
  destruct (X17_loadFrame_shows_one_cached_layer loaded 0 sampleFeed Hne Hd)
    as (fr & Hfr & _).
  exists fr. exact Hfr.
Defined.

(** X18: the base map stays on the map: in every reachable state the
    OpenStreetMap layer is among the layers shown, and every other layer
    shown is a layer of the cache. *)
Theorem X18_base_map_stays (settled : bool) (s : state) :
  reach settled s →
  baseLayer ∈ mapLayers s ∧
  (∀ x, x ∈ mapLayers s → x ≠ baseLayer →
        ∃ p l, radarLayers s !! p = Some l ∧ layer_id l = x).
Proof.
  intros H. destruct (reach_inv _ _ H) as (_ & [_ Hb _ Hs] & _).
  split; [done|]. intros x Hx Hne. by destruct (Hs x Hx) as [->|?].
Qed.

Lemma X18_base_map_stays_witness :
  reach true (steps [ClickPlayPause; Tick 1; Tick 1; ClickPrevFrame] loaded) ∧
  baseLayer ∈ mapLayers (steps [ClickPlayPause; Tick 1; Tick 1; ClickPrevFrame] loaded).
Proof.
  assert (H : reach true (steps [ClickPlayPause; Tick 1%nat; Tick 1%nat; ClickPrevFrame] loaded)).
  { apply reach_steps. exact (reach_fetch _ _ (reach_initial _ _)). }
  split; [exact H|].
  exact (proj1 (X18_base_map_stays true _ H)).
Defined.

(** ** Overlays over regular paths *)

Lemma loadFrames_frames positions s : frames (loadFrames positions s) = frames s.
Proof.
  revert s. induction positions as [|i positions IH]; intros s; [done|].
  change (loadFrames (i :: positions) s) with (loadFrames positions (exec (loadFrame i) s)).
  rewrite IH. by destruct (loadFrame_untouched s i) as (_ & -> & _).
Qed.

(** X19: in every reachable state, and after any further run of
    [loadFrame] calls with arbitrary integer arguments, at most one
    overlay is on the map, and none when the frame collection is empty;
    when no frame of the collection has a path that is a name of
    [Object.prototype], exactly one overlay is on the map as soon as the
    collection is non-empty. *)
Theorem X19_overlays_over_regular_paths
    (settled : bool) (s : state) (positions : list Z) :
  reach settled s →
  let s' := loadFrames positions s in
  (size (activeOverlays s') ≤ 1)%nat ∧
  (frames s' = [] → activeOverlays s' = ∅) ∧
  (clean (frames s) → frames s' ≠ [] → size (activeOverlays s') = 1%nat).
Proof.
  intros H s'.
  pose proof (reach_inv _ _ (reach_loadFrames _ _ positions H)) as HI. fold s' in HI.
  destruct (inv_overlays settled s' HI) as [H0 H1].
  split; [|split; [done|]].
  - destruct (decide (frames s' = [])) as [He|Hne].
    + rewrite (H0 He), size_empty. lia.
    + destruct (H1 Hne) as (fr & _ & Hm).
      destruct (radarLayers s' !! path fr); [by rewrite Hm, size_singleton|].
      destruct Hm as [_ ->]. rewrite size_empty. lia.
  - intros Hc Hne. destruct (H1 Hne) as (fr & Hfr & Hm).
    unfold s' in Hfr at 1. rewrite loadFrames_frames in Hfr.
    destruct (radarLayers s' !! path fr); [by rewrite Hm, size_singleton|].
    destruct Hm as [Hp _]. by rewrite (clean_at_index _ _ _ Hc Hfr) in Hp.
Qed.

Lemma X19_overlays_over_regular_paths_witness :
  reach true loaded ∧ clean (frames loaded) ∧
  size (activeOverlays (loadFrames [5; -1; 1; 1] loaded)) = 1%nat.
Proof.
  assert (H : reach true loaded) by exact (reach_fetch _ _ (reach_initial _ _)).
  assert (Hc : clean (frames loaded)).
  { apply (bool_decide_unpack _). by vm_compute. }
  split; [exact H|]. split; [exact Hc|].
  destruct (X19_overlays_over_regular_paths true loaded [5; -1; 1; 1] H) as (_ & _ & H1).
  apply H1; [exact Hc | by vm_compute].
Defined.
